(** * AppleToSpotifyPlaylistSync: a shallow embedding of [main.py]

    The script reads every track of an Apple Music playlist, looks each of
    them up on Spotify, asks for a confirmation on the console and then
    rewrites a Spotify playlist with the tracks found, sorted by artist.

    The embedding follows the four functions of [main.py]:
    [get_apple_music_tracks], [find_spotify_tracks],
    [update_spotify_playlist] and [main].  The two remote services and the
    console are modelled as oracles ([services]); every call the script
    makes is recorded, with its answer, in a trace. *)

From stdpp Require Import base option list sorting gmap strings pretty.
From Stdlib Require Import Ascii Lia.

(** ** Strings

    A Python [str] is modelled by a Rocq [string] whose characters are read
    as the code points U+0000..U+00FF.  On that range [str.lower],
    [str.isspace] (which is also what the pattern [\s] and [str.strip]
    use) are the functions below.  Message literals that hold a symbol
    outside the range are kept as their UTF-8 bytes; they are only ever
    printed. *)

Module Str.

Definition code (c : ascii) : N := N_of_ascii c.

(** [str.isspace] for one character: TAB..CR, FS..US, SPACE, NEL, NBSP. *)
Definition isspace (c : ascii) : bool :=
  let n := code c in
  ((9 <=? n) && (n <=? 13) || (28 <=? n) && (n <=? 32)
   || (n =? 133) || (n =? 160))%N.

(** [str.lower] for one character: A..Z, and the capital letters
    U+00C0..U+00DE except the multiplication sign U+00D7. *)
Definition lower_char (c : ascii) : ascii :=
  let n := code c in
  if ((65 <=? n) && (n <=? 90)
      || (192 <=? n) && (n <=? 222) && negb (n =? 215))%N
  then ascii_of_N (n + 32) else c.

Fixpoint lower (s : string) : string :=
  match s with
  | EmptyString => EmptyString
  | String c s' => String (lower_char c) (lower s')
  end.

(** [sub in s], for two strings: [sub] occurs somewhere in [s]. *)
Fixpoint contains (sub s : string) : bool :=
  String.prefix sub s
  || match s with
     | EmptyString => false
     | String _ s' => contains sub s'
     end.

(** [str.lstrip()], [str.rstrip()] and [str.strip()] without argument. *)
Fixpoint lstrip (s : string) : string :=
  match s with
  | EmptyString => EmptyString
  | String c s' => if isspace c then lstrip s' else s
  end.

Fixpoint rstrip (s : string) : string :=
  match s with
  | EmptyString => EmptyString
  | String c s' =>
      match rstrip s' with
      | EmptyString => if isspace c then EmptyString else String c EmptyString
      | r => String c r
      end
  end.

Definition strip (s : string) : string := rstrip (lstrip s).

(** The f-string conversion of a non-negative [int]. *)
Definition of_nat (n : nat) : string := pretty n.
Global Arguments of_nat : simpl never.

End Str.

(** ** The title-cleaning pattern

    [re.sub(r'\s*\([^)]*\)|\s*\[[^\]]*\]', '', name)].

    Both alternatives have the shape [\s* open [^close]* close].  A
    whitespace character is never [open] and a character taken by
    [[^close]*] is never [close], so backtracking into either star cannot
    produce a match that the greedy choice misses: an alternative matches
    at the start of [s] exactly when the longest whitespace run is followed
    by [open] and a [close] occurs after it, and the match ends at the first
    such [close]. *)

Module Re.

(** [[^close]* close]: the rest of the string after the first [close]. *)
Fixpoint after_close (close : ascii) (s : string) : option string :=
  match s with
  | EmptyString => None
  | String c s' => if Ascii.eqb c close then Some s' else after_close close s'
  end.

(** One alternative, anchored at the start of [s]; the result is what is
    left of [s] after the match. *)
Definition match_group (open close : ascii) (s : string) : option string :=
  match Str.lstrip s with
  | EmptyString => None
  | String c s' => if Ascii.eqb c open then after_close close s' else None
  end.

(** The whole pattern: the parenthesis alternative is tried first. *)
Definition match_here (s : string) : option string :=
  match match_group "("%char ")"%char s with
  | Some rest => Some rest
  | None => match_group "["%char "]"%char s
  end.

(** [re.sub(pattern, '', s)]: scan from the left; where the pattern
    matches, drop the match and go on after it, otherwise keep the
    character and move one position on.  A match is never empty, so
    [String.length s] steps always suffice. *)
Fixpoint sub_from (steps : nat) (s : string) : string :=
  match steps with
  | O => s
  | S steps =>
      match s with
      | EmptyString => EmptyString
      | String c s' =>
          match match_here s with
          | Some rest => sub_from steps rest
          | None => String c (sub_from steps s')
          end
      end
  end.

Definition sub (s : string) : string := sub_from (String.length s) s.

End Re.

(** [re.sub(...).strip()] of [find_spotify_tracks]. *)
Definition cleaned_name (name : string) : string := Str.strip (Re.sub name).

(** ** Data model *)

(** An error: an exception that is an instance of [Exception], given by
    its text as [str(e)] gives it.  The four handlers of the script are
    [except Exception]; the collaborators of this model fail with errors
    only.  [KeyboardInterrupt] and [SystemExit], which are no instances of
    [Exception] and which those handlers let through, are not among the
    answers of a collaborator here. *)
Definition exn : Type := string.

(** What a call to a collaborator does: it returns a value or raises. *)
Inductive reply (A : Type) : Type :=
| Returns (a : A)
| Raises (e : exn).
Arguments Returns {A} a.
Arguments Raises {A} e.

#[local] Unset Elimination Schemes.
(** A parsed JSON value: [None], a [bool], an [int], a [float] (given by
    its [repr]), a [str], a [list] or a [dict].  The [dict] is the
    ["attributes"] object of a record; the fields the script reads from it
    are text in the source API, and the fields of an object are strings
    here. *)
Inductive json : Type :=
| JNull
| JBool (b : bool)
| JInt (n : Z)
| JFloat (repr : string)
| JString (s : string)
| JArray (items : list json)
| JObject (fields : gmap string string).
#[local] Set Elimination Schemes.

(** A raw record of the source API is a JSON object; the script only looks
    at its ["attributes"] key, whose value may be any JSON value. *)
Abbreviation raw_track := (gmap string json).

Module Py.

(** [type(v).__name__] *)
Definition type_name (v : json) : string :=
  match v with
  | JNull => "NoneType"
  | JBool _ => "bool"
  | JInt _ => "int"
  | JFloat _ => "float"
  | JString _ => "str"
  | JArray _ => "list"
  | JObject _ => "dict"
  end.

(** [key in v] for a string [key]: a key of a [dict], an element of a
    [list], a substring of a [str]; on the other values the test raises
    [TypeError] (the texts are those of CPython 3.11 to 3.13). *)
Definition contains (key : string) (v : json) : reply bool :=
  match v with
  | JObject fields => Returns (bool_decide (is_Some (fields !! key)))
  | JArray items =>
      Returns (existsb (fun x => match x with
                                 | JString s => String.eqb s key
                                 | _ => false
                                 end) items)
  | JString s => Returns (Str.contains key s)
  | JNull | JBool _ | JInt _ | JFloat _ =>
      Raises ("argument of type '" +:+ type_name v +:+ "' is not iterable")
  end.

(** [v[key]] for a string [key]: the field of a [dict] ([KeyError] when it
    has none); [TypeError] on every other value. *)
Definition getitem (v : json) (key : string) : reply string :=
  match v with
  | JObject fields =>
      match fields !! key with
      | Some x => Returns x
      | None => Raises ("'" +:+ key +:+ "'")
      end
  | JString _ => Raises "string indices must be integers, not 'str'"
  | JArray _ => Raises "list indices must be integers or slices, not str"
  | JNull | JBool _ | JInt _ | JFloat _ =>
      Raises ("'" +:+ type_name v +:+ "' object is not subscriptable")
  end.

End Py.

Module Apple.
(** [{'artist': artist, 'name': song_name}] *)
Record track : Type := Track { artist : string; name : string }.
End Apple.

Module Spotify.
(** One element of [result['tracks']['items']]: [id], [name] and the
    names of [artists]. *)
Record item : Type := Item { item_id : string; item_name : string; item_artists : list string }.

(** [{'id': ..., 'artist': ..., 'name': ...}] *)
Record track : Type := Track { id : string; artist : string; name : string }.
End Spotify.

(** Everything the script does to the outside world, with the answer it
    got. *)
Inductive event : Type :=
| Print (line : string)
| Sleep (ms : nat)
| Input (prompt : string) (r : reply string)
| SpotifyMe (r : reply unit)
| AppleMusic (r : reply unit)
| PlaylistRelationship (playlist_id : string) (limit offset : nat) (r : reply (list raw_track))
| Search (q : string) (r : reply (list Spotify.item))
| PlaylistReplaceItems (playlist_id : string) (items : list string) (r : reply unit)
| PlaylistAddItems (playlist_id : string) (items : list string) (r : reply unit).

Definition is_write (e : event) : bool :=
  match e with
  | PlaylistReplaceItems _ _ _ | PlaylistAddItems _ _ _ => true
  | _ => false
  end.

Definition is_search (e : event) : bool :=
  match e with Search _ _ => true | _ => false end.

Definition is_page (e : event) : bool :=
  match e with PlaylistRelationship _ _ _ _ => true | _ => false end.

Definition is_input (e : event) : bool :=
  match e with Input _ _ => true | _ => false end.

(** The destination-service write calls, the searches and the page
    requests of a trace, in the order they were made. *)
Definition writes (tr : list event) : list event := List.filter is_write tr.
Definition searches (tr : list event) : list event := List.filter is_search tr.
Definition page_requests (tr : list event) : list event := List.filter is_page tr.

(** The collaborators.  The configuration constants come from the
    environment.  A search or a playlist write may answer differently each
    time it is called: its answer is given for the k-th call of its kind.
    A page request is answered by offset (no offset is requested twice). *)
Record services : Type := Services {
  SPOTIFY_PLAYLIST_ID : string;
  APPLE_PLAYLIST_ID : string;
  (** [spotipy.Spotify(auth_manager=...)] followed by [sp.me()] *)
  spotify_me : reply unit;
  (** reading the key file and [applemusic.AppleMusic(...)] *)
  apple_music : reply unit;
  (** [am.playlist_relationship(playlist_id, 'tracks', limit=100, offset=offset)['data']] *)
  playlist_relationship : string -> nat -> reply (list raw_track);
  (** [sp.search(q=query, type='track', limit=1)['tracks']['items']] *)
  search : nat -> string -> reply (list Spotify.item);
  (** [sp.playlist_replace_items] and [sp.playlist_add_items] *)
  playlist_write : nat -> reply unit;
  (** [input(prompt)] *)
  console_input : reply string
}.

(** The state of the world: what has happened so far, and the contents of
    the destination playlist.  A write that returns has its effect
    ([playlist_replace_items] sets the contents, [playlist_add_items]
    appends); one that raises has none. *)
Record state : Type := State { trace : list event; playlist : list string }.

Definition log (e : event) (st : state) : state :=
  {| trace := trace st ++ [e]; playlist := playlist st |}.

Definition set_playlist (p : list string) (st : state) : state :=
  {| trace := trace st; playlist := p |}.

(** ** The monad of the script: state, exceptions, and fuel for the one
    unbounded loop. *)

Inductive outcome (A : Type) : Type :=
| Ret (a : A)
| Exc (e : exn)
| OutOfFuel.
Arguments Ret {A} a.
Arguments Exc {A} e.
Arguments OutOfFuel {A}.

Definition M (A : Type) : Type := state -> outcome A * state.

Definition ret {A} (a : A) : M A := fun st => (Ret a, st).

Definition bind {A B} (m : M A) (k : A -> M B) : M B :=
  fun st =>
    match m st with
    | (Ret a, st') => k a st'
    | (Exc e, st') => (Exc e, st')
    | (OutOfFuel, st') => (OutOfFuel, st')
    end.

Definition raise {A} (e : exn) : M A := fun st => (Exc e, st).

(** [try: body  except Exception as e: handler].  Every [exn] is an
    instance of [Exception], so the handler takes whatever [body] raises. *)
Definition try_except {A} (body : M A) (handler : exn -> M A) : M A :=
  fun st =>
    match body st with
    | (Exc e, st') => handler e st'
    | r => r
    end.

Declare Scope script_scope.
Delimit Scope script_scope with script.
Notation "x <- m ;; k" := (bind m (fun x => k))
  (at level 100, m at next level, right associativity) : script_scope.
Notation "m ;; k" := (bind m (fun _ => k))
  (at level 100, right associativity) : script_scope.
Local Open Scope script_scope.

(** An answer, as a computation. *)
Definition of_reply {A} (r : reply A) : M A :=
  match r with
  | Returns a => ret a
  | Raises e => raise e
  end.

Definition emit (e : event) : M unit := fun st => (Ret tt, log e st).

Definition print (line : string) : M unit := emit (Print line).
Definition sleep (ms : nat) : M unit := emit (Sleep ms).

(** [for x in l: body x] *)
Fixpoint for_each {A} (l : list A) (body : A -> M unit) : M unit :=
  match l with
  | [] => ret tt
  | x :: l' => body x ;; for_each l' body
  end.

(** ** Built-ins *)

(** The newline character of the ["\n"] escapes. *)
Definition nl : string := String "010"%char EmptyString.

(** [s * n] *)
Fixpoint str_times (s : string) (n : nat) : string :=
  match n with
  | O => EmptyString
  | S n' => s +:+ str_times s n'
  end.

(** [range(start, stop, step)] for a positive [step]. *)
Definition range (start stop step : nat) : list nat :=
  List.map (fun k => start + k * step) (seq 0 ((stop - start + step - 1) / step)).

(** [sorted(l, key=key)] with string keys.  Python's sort is stable, and a
    stable sort has one possible result; it is computed here by inserting
    each element, from the last to the first, before the first element
    whose key is not smaller. *)
Section Sorted.
Context {A : Type} (key : A -> string).

Fixpoint insert_sorted (x : A) (l : list A) : list A :=
  match l with
  | [] => [x]
  | y :: l' => if String.leb (key x) (key y) then x :: l else y :: insert_sorted x l'
  end.

Definition sorted (l : list A) : list A := foldr insert_sorted [] l.

End Sorted.

(** ** The script *)

Section Script.
Context (sv : services).

(** *** Calls to the collaborators *)

Definition am_playlist_relationship (playlist_id : string) (limit offset : nat)
  : M (list raw_track) :=
  fun st =>
    let r := playlist_relationship sv playlist_id offset in
    of_reply r (log (PlaylistRelationship playlist_id limit offset r) st).

Definition sp_search (q : string) : M (list Spotify.item) :=
  fun st =>
    let r := search sv (length (searches (trace st))) q in
    of_reply r (log (Search q r) st).

Definition sp_playlist_replace_items (playlist_id : string) (items : list string) : M unit :=
  fun st =>
    let r := playlist_write sv (length (writes (trace st))) in
    let st' := log (PlaylistReplaceItems playlist_id items r) st in
    match r with
    | Returns _ => (Ret tt, set_playlist items st')
    | Raises e => (Exc e, st')
    end.

Definition sp_playlist_add_items (playlist_id : string) (items : list string) : M unit :=
  fun st =>
    let r := playlist_write sv (length (writes (trace st))) in
    let st' := log (PlaylistAddItems playlist_id items r) st in
    match r with
    | Returns _ => (Ret tt, set_playlist (playlist st ++ items) st')
    | Raises e => (Exc e, st')
    end.

Definition input (prompt : string) : M string :=
  fun st =>
    let r := console_input sv in
    of_reply r (log (Input prompt r) st).

Definition sp_me : M unit :=
  fun st => of_reply (spotify_me sv) (log (SpotifyMe (spotify_me sv)) st).

Definition am_connect : M unit :=
  fun st => of_reply (apple_music sv) (log (AppleMusic (apple_music sv)) st).

(** *** [get_apple_music_tracks] *)

(** Lines 48-51 for one record: the test
    ['attributes' in track and 'artistName' in track['attributes'] and
    'name' in track['attributes']], evaluated from left to right and
    stopping at the first part that is false, then the two reads.  The
    answer is the track to append, [None] when the record is skipped; the
    test or a read may raise. *)
Definition usable (track : raw_track) : reply (option Apple.track) :=
  match track !! "attributes" with
  | None => Returns None
  | Some attributes =>
      match Py.contains "artistName" attributes with
      | Raises e => Raises e
      | Returns false => Returns None
      | Returns true =>
          match Py.contains "name" attributes with
          | Raises e => Raises e
          | Returns false => Returns None
          | Returns true =>
              match Py.getitem attributes "artistName" with
              | Raises e => Raises e
              | Returns artist =>
                  match Py.getitem attributes "name" with
                  | Raises e => Raises e
                  | Returns song_name => Returns (Some (Apple.Track artist song_name))
                  end
              end
          end
      end
  end.

(** Lines 46-51: the [for] loop over one page, appending to [all_tracks];
    it stops at the first record that raises. *)
Fixpoint process_page (page_of_tracks : list raw_track) (all_tracks : list Apple.track)
  : reply (list Apple.track) :=
  match page_of_tracks with
  | [] => Returns all_tracks
  | track :: rest =>
      match usable track with
      | Returns (Some t) => process_page rest (all_tracks ++ [t])
      | Returns None => process_page rest all_tracks
      | Raises e => Raises e
      end
  end.

(** Lines 38-62: the [while True] loop; [fuel] bounds the number of pages. *)
Fixpoint fetch_pages (fuel : nat) (playlist_id : string)
    (all_tracks : list Apple.track) (offset : nat) : M (list Apple.track) :=
  match fuel with
  | O => fun st => (OutOfFuel, st)
  | S fuel' =>
      page_of_tracks <- am_playlist_relationship playlist_id 100 offset ;;
      all_tracks <- of_reply (process_page page_of_tracks all_tracks) ;;
      if length page_of_tracks <? 100 then
        print "  > Reached the end of the playlist." ;;
        ret all_tracks
      else
        print ("  > Fetched " +:+ Str.of_nat (length all_tracks) +:+ " tracks so far...") ;;
        sleep 200 ;;
        fetch_pages fuel' playlist_id all_tracks (offset + 100)
  end.

Definition get_apple_music_tracks (fuel : nat) (playlist_id : string)
  : M (option (list Apple.track)) :=
  print "-> Connecting to Apple Music..." ;;
  try_except
    (am_connect ;;
     print "-> Fetching all tracks from Apple Music playlist (this may take a moment for large playlists)..." ;;
     all_tracks <- fetch_pages fuel playlist_id [] 0 ;;
     print ("-> Found a total of " +:+ Str.of_nat (length all_tracks)
            +:+ " tracks in the Apple Music playlist.") ;;
     ret (Some all_tracks))
    (fun e =>
       print ("Error connecting to Apple Music or fetching playlist: " +:+ e) ;;
       ret None).

(** *** [find_spotify_tracks] *)

Definition query (name artist : string) : string :=
  "track:" +:+ name +:+ " artist:" +:+ artist.

(** Lines 78-117: the body of the loop, for the track at index [i] of
    [total]; [found] and [not_found] are the two lists it appends to. *)
Definition search_one (total i : nat) (track : Apple.track)
    (found_tracks : list Spotify.track) (not_found_tracks : list string)
  : M (list Spotify.track * list string) :=
  let artist := Apple.artist track in
  let name := Apple.name track in
  print ("  (" +:+ Str.of_nat (i + 1) +:+ "/" +:+ Str.of_nat total
         +:+ ") Searching for: '" +:+ name +:+ "' by '" +:+ artist +:+ "'") ;;
  r <- try_except
         (result <- sp_search (query name artist) ;;
          result <- match result with
                    | [] =>
                        print "  > No exact match found. Cleaning title and trying again..." ;;
                        let cleaned := cleaned_name name in
                        if decide (cleaned = name) then ret result
                        else
                          print ("  > Cleaned title: '" +:+ cleaned +:+ "'") ;;
                          sp_search (query cleaned artist)
                    | _ :: _ => ret result
                    end ;;
          match result with
          | top_result :: _ =>
              match Spotify.item_artists top_result with
              | artist0 :: _ =>
                  print ("  > Found on Spotify: '" +:+ Spotify.item_name top_result
                         +:+ "' by '" +:+ artist0 +:+ "'") ;;
                  ret (found_tracks ++ [Spotify.Track (Spotify.item_id top_result) artist0
                                          (Spotify.item_name top_result)],
                       not_found_tracks)
              | [] => raise "list index out of range"
              end
          | [] =>
              print "  > Could not find a match after cleaning." ;;
              ret (found_tracks, not_found_tracks ++ [artist +:+ " - " +:+ name])
          end)
         (fun e =>
            print ("    - An error occurred while searching for '" +:+ name +:+ "': " +:+ e) ;;
            ret (found_tracks,
                 not_found_tracks ++ [artist +:+ " - " +:+ name +:+ " (Error during search)"])) ;;
  sleep 100 ;;
  ret r.

(** Line 77: [for i, track in enumerate(apple_tracks)]. *)
Fixpoint search_all (total i : nat) (apple_tracks : list Apple.track)
    (found_tracks : list Spotify.track) (not_found_tracks : list string)
  : M (list Spotify.track * list string) :=
  match apple_tracks with
  | [] => ret (found_tracks, not_found_tracks)
  | track :: rest =>
      r <- search_one total i track found_tracks not_found_tracks ;;
      search_all total (S i) rest (fst r) (snd r)
  end.

Definition find_spotify_tracks (apple_tracks : list Apple.track)
  : M (list Spotify.track * list string) :=
  print "-> Searching for tracks on Spotify..." ;;
  r <- search_all (length apple_tracks) 0 apple_tracks [] [] ;;
  print (nl +:+ "-> Search complete.") ;;
  ret r.

(** *** [update_spotify_playlist] *)

(** [key=lambda x: x['artist'].lower()] *)
Definition artist_key (x : Spotify.track) : string := Str.lower (Spotify.artist x).

Definition update_spotify_playlist (playlist_id : string) (track_ids : list Spotify.track)
  : M unit :=
  match track_ids with
  | [] => print "No tracks to add. Exiting."
  | _ :: _ =>
      print "-> Sorting tracks by artist name..." ;;
      let sorted_tracks := sorted artist_key track_ids in
      let sorted_track_ids := List.map Spotify.id sorted_tracks in
      print "-> Updating Spotify playlist..." ;;
      try_except
        (sp_playlist_replace_items playlist_id [] ;;
         for_each (range 0 (length sorted_track_ids) 100)
           (fun i =>
              let chunk := take 100 (drop i sorted_track_ids) in
              sp_playlist_add_items playlist_id chunk) ;;
         print "✅ Success! Your Spotify playlist has been updated and sorted by artist.")
        (fun e => print ("Error updating Spotify playlist: " +:+ e))
  end.

(** *** [main] *)

Definition confirmation_prompt : string :=
  nl +:+ "Do you want to proceed with updating the Spotify playlist? (y/n): ".

Definition main (fuel : nat) : M unit :=
  authenticated <-
    try_except (sp_me ;; ret true)
      (fun e =>
         print ("Could not authenticate with Spotify. Please check your credentials. Error: " +:+ e) ;;
         ret false) ;;
  if negb authenticated then ret tt
  else
    apple_tracks <- get_apple_music_tracks fuel (APPLE_PLAYLIST_ID sv) ;;
    match apple_tracks with
    | None | Some [] => ret tt
    | Some ((_ :: _) as apple_tracks) =>
        r <- find_spotify_tracks apple_tracks ;;
        let spotify_tracks := fst r in
        let not_found_tracks := snd r in
        print (nl +:+ str_times "=" 50) ;;
        print "                 SYNC REVIEW" ;;
        print (str_times "=" 50) ;;
        match not_found_tracks with
        | [] => ret tt
        | _ :: _ =>
            print (nl +:+ "❌ The following songs could not be found on Spotify:") ;;
            for_each not_found_tracks (fun item => print ("  - " +:+ item))
        end ;;
        match spotify_tracks with
        | [] => ret tt
        | _ :: _ =>
            print (nl +:+ "✅ The following songs will be synced to your Spotify playlist, sorted by artist:") ;;
            let sorted_display_tracks := sorted artist_key spotify_tracks in
            for_each sorted_display_tracks
              (fun track => print ("  - " +:+ Spotify.artist track +:+ " - " +:+ Spotify.name track))
        end ;;
        print (str_times "=" 50) ;;
        match spotify_tracks with
        | [] => print (nl +:+ "No tracks to sync. Exiting.")
        | _ :: _ =>
            proceed <- input confirmation_prompt ;;
            let proceed := Str.lower proceed in
            if decide (proceed = "y") then
              update_spotify_playlist (SPOTIFY_PLAYLIST_ID sv) spotify_tracks
            else
              print (nl +:+ "Sync cancelled by user.")
        end
    end.

End Script.

(** ** The words of the specification

    Notions that the specification uses, written from its text and not
    from the script: the properties compare the script with them. *)

Module Spec.

(** "a raw record [with] an "attributes" field with both "artistName" and
    "name" subfields": the entry that such a record stands for, the artist
    and the title being those two subfields. *)
Definition entry (track : raw_track) : option Apple.track :=
  match track !! "attributes" with
  | Some (JObject fields) =>
      match fields !! "artistName", fields !! "name" with
      | Some artist_name, Some title => Some (Apple.Track artist_name title)
      | _, _ => None
      end
  | _ => None
  end.

(** "the usable entries in page order" of a playlist. *)
Definition usable_entries (pl : list raw_track) : list Apple.track := omap entry pl.

(** A record as the source API documents it: its attributes, when it has
    any, are an object. *)
Definition conforms (track : raw_track) : Prop :=
  match track !! "attributes" with
  | None | Some (JObject _) => True
  | Some _ => False
  end.

#[global] Instance conforms_dec (track : raw_track) : Decision (conforms track).
Proof. unfold conforms. destruct (track !! "attributes") as [[]|]; apply _. Defined.

(** "sorted by artist name case-insensitively": the track [a] may stand
    before the track [b]. *)
Definition artist_le (a b : Spotify.track) : Prop :=
  String.leb (Str.lower (Spotify.artist a)) (Str.lower (Spotify.artist b)) = true.

(** "artist names equal ignoring case": the artist of [t] is [name], up to
    case. *)
Definition by_artist (name : string) (t : Spotify.track) : Prop :=
  Str.lower (Spotify.artist t) = Str.lower name.

#[global] Instance by_artist_dec (name : string) (t : Spotify.track) :
  Decision (by_artist name t).
Proof. unfold by_artist. apply _. Defined.

End Spec.

(** ** Notions used to state the properties *)

(** The order the sort keys are compared with. *)
Definition key_le {A : Type} (key : A -> string) (x y : A) : Prop :=
  String.leb (key x) (key y) = true.

(** The id chunks that the loop of [update_spotify_playlist] sends:
    [sorted_track_ids[i:i + 100]] for [i] in [range(0, len, 100)]. *)
Definition chunks (ids : list string) : list (list string) :=
  List.map (fun i => take 100 (drop i ids)) (range 0 (length ids) 100).

(** The events of the two kinds of write call that returned. *)
Definition replaced (playlist_id : string) : event :=
  PlaylistReplaceItems playlist_id [] (Returns tt).
Definition added (playlist_id : string) (chunk : list string) : event :=
  PlaylistAddItems playlist_id chunk (Returns tt).

(** The destination service accepts the next [m] write calls. *)
Definition accepts (sv : services) (st : state) (m : nat) : Prop :=
  forall j, j < m -> playlist_write sv (length (writes (trace st)) + j) = Returns tt.

(** What [update_spotify_playlist] sends: the ids of the sorted tracks. *)
Definition sorted_ids (tracks : list Spotify.track) : list string :=
  List.map Spotify.id (sorted artist_key tracks).

Definition success_line : string :=
  "✅ Success! Your Spotify playlist has been updated and sorted by artist.".

(** The two lines [update_spotify_playlist] prints before it writes. *)
Definition update_header : list event :=
  [Print "-> Sorting tracks by artist name..."; Print "-> Updating Spotify playlist..."].

Definition error_line (e : exn) : string := "Error updating Spotify playlist: " +:+ e.

(** The write calls [update_spotify_playlist] sets out to make, in order:
    the clearing replace, then one append per chunk.  Each is an event
    still waiting for its answer. *)
Definition planned_writes (playlist_id : string) (ids : list string)
  : list (reply unit -> event) :=
  PlaylistReplaceItems playlist_id [] :: List.map (PlaylistAddItems playlist_id) (chunks ids).

(** The contents of a playlist that held [before] once the first [k]
    planned writes have returned. *)
Definition applied (before : list string) (k : nat) (ids : list string) : list string :=
  match k with
  | O => before
  | S j => concat (take j (chunks ids))
  end.

(** *** The fetcher *)

(** How a page request ends, seen from the loop of
    [get_apple_music_tracks]. *)
Inductive ending : Type :=
| Completed     (* a page with fewer than 100 records arrived *)
| Failed        (* a request, or a record of its page, raised *)
| Unfinished.   (* the fuel ran out before the last page *)

(** The track that the loop gets from a record, if it gets one. *)
Definition yields (track : raw_track) : option Apple.track :=
  match usable track with
  | Returns t => t
  | Raises _ => None
  end.

(** The loop gets past the record: lines 48-51 do not raise on it. *)
Definition passes (track : raw_track) : bool :=
  match usable track with
  | Returns _ => true
  | Raises _ => false
  end.

(** The number of raw records of a page that the loop went through,
    skipped or not; none when the request raised, or a record did. *)
Definition reply_size (r : reply (list raw_track)) : option nat :=
  match r with
  | Returns page_of_tracks =>
      if forallb passes page_of_tracks then Some (length page_of_tracks) else None
  | Raises _ => None
  end.

(** Pagination as a function of the page sizes alone: the offsets that are
    requested, starting at [offset], and how the loop ends. *)
Fixpoint pagination (size : nat -> option nat) (fuel offset : nat) : list nat * ending :=
  match fuel with
  | O => ([], Unfinished)
  | S fuel' =>
      match size offset with
      | None => ([offset], Failed)
      | Some n =>
          if n <? 100 then ([offset], Completed)
          else (offset :: (pagination size fuel' (offset + 100)).1,
                (pagination size fuel' (offset + 100)).2)
      end
  end.

(** The page sizes of a source service, and the event of a page request. *)
Definition page_sizes (sv : services) (playlist_id : string) (offset : nat) : option nat :=
  reply_size (playlist_relationship sv playlist_id offset).

Definition page_request (sv : services) (playlist_id : string) (offset : nat) : event :=
  PlaylistRelationship playlist_id 100 offset (playlist_relationship sv playlist_id offset).

Definition page_offset (e : event) : option nat :=
  match e with
  | PlaylistRelationship _ _ offset _ => Some offset
  | _ => None
  end.

Definition page_records (e : event) : list raw_track :=
  match e with
  | PlaylistRelationship _ _ _ (Returns page_of_tracks) => page_of_tracks
  | _ => []
  end.

(** The offsets requested and the raw records received in a trace. *)
Definition offsets_requested (evs : list event) : list nat := omap page_offset evs.
Definition records_received (evs : list event) : list raw_track :=
  concat (List.map page_records evs).

(** How a call of [get_apple_music_tracks] ended: with a track list, with
    [None] (or an exception), or not at all within the fuel. *)
Definition fetch_ending (r : outcome (option (list Apple.track))) : ending :=
  match r with
  | Ret (Some _) => Completed
  | Ret None | Exc _ => Failed
  | OutOfFuel => Unfinished
  end.

(** The source service holds the playlist [pl] and serves it in pages of
    up to 100 records. *)
Definition serves (sv : services) (playlist_id : string) (pl : list raw_track) : Prop :=
  apple_music sv = Returns tt
  /\ forall offset, playlist_relationship sv playlist_id offset
                   = Returns (take 100 (drop offset pl)).

(** Page [k] of the playlist [pl]. *)
Definition page (pl : list raw_track) (k : nat) : list raw_track :=
  take 100 (drop (k * 100) pl).

(** Events that neither write to the destination playlist nor read the
    console. *)
Definition harmless (evs : list event) : Prop :=
  writes evs = [] /\ List.filter is_input evs = [].

(** *** The matcher *)

(** The outcome of looking one source track up, in the words of the
    specification: a matched track or an unmatched descriptor. *)
Inductive MatchResult : Type :=
| Matched (t : Spotify.track)
| Unmatched (descriptor : string).

Definition matched_of (outs : list MatchResult) : list Spotify.track :=
  omap (fun o => match o with Matched t => Some t | Unmatched _ => None end) outs.

Definition unmatched_of (outs : list MatchResult) : list string :=
  omap (fun o => match o with Matched _ => None | Unmatched d => Some d end) outs.

(** The descriptor of a track that was not found, and the one of a track
    whose search failed. *)
Definition not_found_descriptor (track : Apple.track) : string :=
  Apple.artist track +:+ " - " +:+ Apple.name track.

Definition search_error_descriptor (track : Apple.track) : string :=
  Apple.artist track +:+ " - " +:+ Apple.name track +:+ " (Error during search)".

(** What the answer of the last search made for a track means for it. *)
Definition outcome_of_reply (track : Apple.track) (r : reply (list Spotify.item))
  : MatchResult :=
  match r with
  | Raises _ => Unmatched (search_error_descriptor track)
  | Returns [] => Unmatched (not_found_descriptor track)
  | Returns (top_result :: _) =>
      match Spotify.item_artists top_result with
      | artist0 :: _ =>
          Matched (Spotify.Track (Spotify.item_id top_result) artist0
                     (Spotify.item_name top_result))
      | [] => Unmatched (search_error_descriptor track)
      end
  end.

(** [seg] is the trace of one lookup of [track] and [out] its outcome:
    one search with the literal title, or, when that returned nothing and
    cleaning changes the title, a second one with the cleaned title; the
    outcome is decided by the answer of the last search made. *)
Definition lookup (track : Apple.track) (seg : list event) (out : MatchResult) : Prop :=
  exists r : reply (list Spotify.item),
    (searches seg = [Search (query (Apple.name track) (Apple.artist track)) r]
     \/ cleaned_name (Apple.name track) <> Apple.name track
        /\ searches seg
           = [Search (query (Apple.name track) (Apple.artist track)) (Returns []);
              Search (query (cleaned_name (Apple.name track)) (Apple.artist track)) r])
    /\ out = outcome_of_reply track r
    /\ writes seg = [] /\ List.filter is_input seg = [].

(** Some search recorded in [seg] raised. *)
Definition search_raised (seg : list event) : Prop :=
  exists q e, Search q (Raises e) ∈ seg.

(** A title holds a group when an [open] character is followed, anywhere
    later, by a [close] character. *)
Definition has_group (open close : ascii) (s : string) : Prop :=
  exists a b c : string, s = a +:+ String open (b +:+ String close c).

(** A title with no parenthetical and no bracketed part. *)
Definition plain (name : string) : Prop :=
  ~ has_group "("%char ")"%char name /\ ~ has_group "["%char "]"%char name.

(** The same, as a test. *)
Fixpoint occurs (c : ascii) (s : string) : bool :=
  match s with
  | EmptyString => false
  | String x s' => Ascii.eqb x c || occurs c s'
  end.

Fixpoint has_groupb (open close : ascii) (s : string) : bool :=
  match s with
  | EmptyString => false
  | String x s' => (Ascii.eqb x open && occurs close s') || has_groupb open close s'
  end.

Definition plainb (name : string) : bool :=
  negb (has_groupb "("%char ")"%char name) && negb (has_groupb "["%char "]"%char name).

(** *** The orchestrator *)

Definition cancelled_line : string := nl +:+ "Sync cancelled by user.".

(** Lines 197-203 of [main], from the prompt on, as a computation of its
    own. *)
Definition confirm_and_update (sv : services) (spotify_tracks : list Spotify.track)
  : M unit :=
  (proceed <- input sv confirmation_prompt ;;
   let proceed := Str.lower proceed in
   if decide (proceed = "y") then
     update_spotify_playlist sv (SPOTIFY_PLAYLIST_ID sv) spotify_tracks
   else
     print (nl +:+ "Sync cancelled by user."))%script.

(** A computation that, whatever the state, only adds harmless events and
    leaves the playlist alone. *)
Definition quiet {A : Type} (m : M A) : Prop :=
  forall st : state, exists (evs : list event) (r : outcome A),
    m st = (r, {| trace := trace st ++ evs; playlist := playlist st |})
    /\ harmless evs.

(** A computation that is harmless up to the point where it either ends
    or goes on as [confirm_and_update] with a non-empty list of tracks. *)
Definition gated (sv : services) (m : M unit) : Prop :=
  forall st : state, exists pre : list event,
    harmless pre
    /\ ((exists r : outcome unit,
           m st = (r, {| trace := trace st ++ pre; playlist := playlist st |}))
        \/ (exists tracks : list Spotify.track,
              tracks <> []
              /\ m st = confirm_and_update sv tracks
                          {| trace := trace st ++ pre; playlist := playlist st |})).

(** A computation that only ever adds to the trace, and never reads the
    console. *)
Definition extends {A : Type} (m : M A) : Prop :=
  forall st : state, exists (evs : list event) (r : outcome A) (p : list string),
    m st = (r, {| trace := trace st ++ evs; playlist := p |})
    /\ List.filter is_input evs = [].

(** *** Notions for the further properties *)

Definition is_sleep (e : event) : bool :=
  match e with Sleep _ => true | _ => false end.

(** The pauses of a trace. *)
Definition sleeps (tr : list event) : list event := List.filter is_sleep tr.

(** A computation that, whatever the state, leaves the playlist alone and
    only adds events that pass [allowed]; [post] holds of the value it
    returns, if it returns one. *)
Definition confined {A : Type} (allowed : event -> bool) (post : A -> Prop) (m : M A)
  : Prop :=
  forall st : state, exists (evs : list event) (r : outcome A),
    m st = (r, {| trace := trace st ++ evs; playlist := playlist st |})
    /\ forallb allowed evs = true
    /\ (forall a, r = Ret a -> post a).

(** Events that neither write to the playlist nor read the console, and
    those that, besides, are no search either. *)
Definition no_io (e : event) : bool := negb (is_write e) && negb (is_input e).
Definition no_io_no_search (e : event) : bool := no_io e && negb (is_search e).

(** The page requests and the pauses of a trace, in order. *)
Definition paging (tr : list event) : list event :=
  List.filter (fun e => is_page e || is_sleep e) tr.

(** [calls] with a pause of [ms] milliseconds between one and the next. *)
Fixpoint paced (ms : nat) (calls : list event) : list event :=
  match calls with
  | [] => []
  | c :: rest =>
      match rest with
      | [] => [c]
      | _ :: _ => c :: Sleep ms :: paced ms rest
      end
  end.

(** The line that reports the failed test of a record whose attributes are
    [null]. *)
Definition null_error : string :=
  "Error connecting to Apple Music or fetching playlist: "
  +:+ "argument of type 'NoneType' is not iterable".

(** Nothing usable ever comes from the source service. *)
Definition nothing_usable (sv : services) (playlist_id : string) : Prop :=
  forall offset page_of_tracks,
    playlist_relationship sv playlist_id offset = Returns page_of_tracks ->
    omap yields page_of_tracks = [].

(** No search of the destination service ever has a hit. *)
Definition no_match (sv : services) : Prop :=
  forall k q, search sv k q = Returns [] \/ exists e, search sv k q = Raises e.

(** An answer that is a return. *)
Definition returned {A : Type} (r : reply A) : bool :=
  match r with
  | Returns _ => true
  | Raises _ => false
  end.

(** The answers of a write call, put on the planned calls. *)
Definition answered (calls : list (reply unit -> event)) (answers : list (reply unit))
  : list event :=
  zip_with (fun call answer => call answer) calls answers.

(** ** Concrete worlds used in the examples *)

Module Demo.

(** A world where both services answer and the user types [answer]; the
    source playlist is [pl], searches are answered by [find] and playlist
    writes by [write]. *)
Definition world (pl : list raw_track) (find : nat -> string -> reply (list Spotify.item))
    (write : nat -> reply unit) (answer : reply string) : services :=
  {| SPOTIFY_PLAYLIST_ID := "dest";
     APPLE_PLAYLIST_ID := "src";
     spotify_me := Returns tt;
     apple_music := Returns tt;
     playlist_relationship := fun _ offset => Returns (take 100 (drop offset pl));
     search := find;
     playlist_write := write;
     console_input := answer |}.

Definition no_hits : nat -> string -> reply (list Spotify.item) := fun _ _ => Returns [].
Definition write_ok : nat -> reply unit := fun _ => Returns tt.

(** Every write returns but the one of index [k], which raises. *)
Definition write_fails_at (k : nat) : nat -> reply unit :=
  fun i => if decide (i = k) then Raises "HTTP 502" else Returns tt.

(** A destination playlist that already holds something. *)
Definition start : state := {| trace := []; playlist := ["old1"; "old2"] |}.

(** The example of the specification: Zeta, alpha, Zeta. *)
Definition zeta_alpha_zeta : list Spotify.track :=
  [Spotify.Track "id1" "Zeta" "first"; Spotify.Track "id2" "alpha" "second";
   Spotify.Track "id3" "Zeta" "third"].

(** [n] matched tracks whose artists are single letters, in no particular
    order and in both cases. *)
Definition letter (i : nat) : string :=
  String (ascii_of_nat ((if Nat.even i then 65 else 97) + (i * 7) mod 26)) EmptyString.

Definition matched (n : nat) : list Spotify.track :=
  List.map (fun i => Spotify.Track ("id" +:+ pretty i) (letter i) "Song") (seq 0 n).

(** Raw records: a well-formed one and one without ["name"]. *)
Definition record (artist song : string) : raw_track :=
  {[ "attributes" := JObject {[ "artistName" := artist; "name" := song ]} ]}.

Definition nameless : raw_track :=
  {[ "attributes" := JObject {[ "artistName" := "Nobody" ]} ]}.

(** A source playlist of [n] well-formed records, and the same playlist
    with every seventh record replaced by a malformed one. *)
Definition source (n : nat) : list raw_track :=
  List.map (fun i => record (letter i) ("Song " +:+ pretty i)) (seq 0 n).

Definition damaged (n : nat) : list raw_track :=
  List.map (fun i => if decide (i mod 7 = 3) then nameless
                     else record (letter i) ("Song " +:+ pretty i)) (seq 0 n).

(** A record whose attributes are [null], and a playlist that holds one,
    in second place. *)
Definition unavailable : raw_track := {[ "attributes" := JNull ]}.

Definition one_odd (odd : raw_track) (n : nat) : list raw_track :=
  List.map (fun i => if decide (i = 1) then odd
                     else record (letter i) ("Song " +:+ pretty i)) (seq 0 n).

Definition spoiled (n : nat) : list raw_track := one_odd unavailable n.

(** A catalogue in which every query has a hit. *)
Definition any_hit : nat -> string -> reply (list Spotify.item) :=
  fun _ q => Returns [Spotify.Item ("id of " +:+ q) q ["Artist of " +:+ q]].

(** A world whose source service cannot be reached. *)
Definition offline : services :=
  {| SPOTIFY_PLAYLIST_ID := "dest";
     APPLE_PLAYLIST_ID := "src";
     spotify_me := Returns tt;
     apple_music := Raises "no key file";
     playlist_relationship := fun _ _ => Returns [];
     search := no_hits;
     playlist_write := write_ok;
     console_input := Returns "y" |}.

(** A world whose source service answers every request with a full page. *)
Definition endless : services :=
  {| SPOTIFY_PLAYLIST_ID := "dest";
     APPLE_PLAYLIST_ID := "src";
     spotify_me := Returns tt;
     apple_music := Returns tt;
     playlist_relationship := fun _ _ => Returns (replicate 100 nameless);
     search := no_hits;
     playlist_write := write_ok;
     console_input := Returns "y" |}.

(** A catalogue that only knows the song ["Song"] by ["Artist X"], under
    the spelling of the destination service. *)
Definition one_song : nat -> string -> reply (list Spotify.item) :=
  fun _ q =>
    if decide (q = "track:Song artist:Artist X")
    then Returns [Spotify.Item "sp-1" "Song - Remastered" ["ARTIST X"; "Guest"]]
    else Returns [].

(** A catalogue whose hits come without artists. *)
Definition anonymous_hit : nat -> string -> reply (list Spotify.item) :=
  fun _ q => Returns [Spotify.Item "sp-0" q []].

(** A world whose destination service refuses the identity check. *)
Definition unauthenticated : services :=
  {| SPOTIFY_PLAYLIST_ID := "dest";
     APPLE_PLAYLIST_ID := "src";
     spotify_me := Raises "401 Unauthorized";
     apple_music := Returns tt;
     playlist_relationship := fun _ _ => Returns [];
     search := no_hits;
     playlist_write := write_ok;
     console_input := Returns "y" |}.

End Demo.

(** ** Proof automation *)

(** Closes an equation between two traces that differ by the bracketing of
    their appends. *)
Ltac trace_eq :=
  repeat first [rewrite <- app_assoc | progress simpl]; try reflexivity.

(** * Properties *)

(** ** Keys and the stable sort *)

Lemma leb_refl (s : string) : String.leb s s = true.
Proof. apply Is_true_true. change (String.le s s). reflexivity. Qed.

Lemma leb_trans (s t u : string) :
  String.leb s t = true -> String.leb t u = true -> String.leb s u = true.
Proof.
  intros H1%Is_true_true H2%Is_true_true. apply Is_true_true.
  change (String.le s u). etransitivity; [exact H1 | exact H2].
Qed.

Lemma leb_false_ge (s t : string) : String.leb s t = false -> String.leb t s = true.
Proof.
  intros H. destruct (String.leb_total s t) as [H' | H']; congruence.
Qed.

Section SortedFacts.
Context {A : Type} (key : A -> string).

Lemma insert_sorted_perm (x : A) (l : list A) : insert_sorted key x l ≡ₚ x :: l.
Proof.
  induction l as [|y l IH]; simpl; [reflexivity|].
  destruct (String.leb (key x) (key y)); [reflexivity|].
  rewrite IH. apply Permutation_swap.
Qed.

Lemma sorted_perm (l : list A) : sorted key l ≡ₚ l.
Proof.
  induction l as [|x l IH]; simpl; [reflexivity|].
  rewrite insert_sorted_perm. by rewrite IH.
Qed.

Lemma sorted_length (l : list A) : length (sorted key l) = length l.
Proof. apply Permutation_length, sorted_perm. Qed.

Lemma insert_sorted_ordered (x : A) (l : list A) :
  StronglySorted (key_le key) l -> StronglySorted (key_le key) (insert_sorted key x l).
Proof.
  induction 1 as [|y l Hl IH Hy]; simpl.
  - repeat constructor.
  - destruct (String.leb (key x) (key y)) eqn:E.
    + constructor; [by constructor|].
      constructor; [exact E|].
      eapply Forall_impl; [exact Hy|].
      intros z Hz. unfold key_le in *. by eapply leb_trans.
    + constructor; [exact IH|].
      rewrite insert_sorted_perm. constructor; [|exact Hy].
      by apply leb_false_ge.
Qed.

Lemma sorted_ordered (l : list A) : StronglySorted (key_le key) (sorted key l).
Proof.
  induction l as [|x l IH]; simpl; [constructor|].
  by apply insert_sorted_ordered.
Qed.

Lemma insert_sorted_filter (k : string) (x : A) (l : list A) :
  filter (fun y => key y = k) (insert_sorted key x l)
  = filter (fun y => key y = k) (x :: l).
Proof.
  induction l as [|y l IH]; simpl; [reflexivity|].
  destruct (String.leb (key x) (key y)) eqn:E; [reflexivity|].
  rewrite (filter_cons _ y), IH, !filter_cons.
  destruct (decide (key y = k)) as [Hy|Hy], (decide (key x = k)) as [Hx|Hx];
    try reflexivity.
  rewrite Hx, Hy, leb_refl in E. discriminate.
Qed.

(** Stability: the elements of any one key come out in the order they
    went in. *)
Lemma sorted_stable (k : string) (l : list A) :
  filter (fun y => key y = k) (sorted key l) = filter (fun y => key y = k) l.
Proof.
  induction l as [|x l IH]; simpl; [reflexivity|].
  rewrite insert_sorted_filter, !filter_cons, IH. reflexivity.
Qed.

(** Two orderings of the same elements by key that both keep every key
    class in the same order are the same list: the result of a stable sort
    does not depend on the algorithm. *)
Lemma stable_order_unique (l1 l2 : list A) :
  StronglySorted (key_le key) l1 -> StronglySorted (key_le key) l2 ->
  (forall k, filter (fun y => key y = k) l1 = filter (fun y => key y = k) l2) ->
  l1 = l2.
Proof.
  intros H1. revert l2. induction H1 as [|x l1 Hs1 IH Hx]; intros l2 H2 Hf.
  - destruct l2 as [|y l2]; [done|].
    specialize (Hf (key y)). by rewrite filter_cons_True in Hf.
  - destruct H2 as [|y l2 Hs2 Hy].
    { specialize (Hf (key x)). by rewrite filter_cons_True in Hf. }
    assert (key x = key y) as Hk.
    { apply String.leb_antisym.
      - assert (y ∈ x :: l1) as Hin.
        { eapply (list_elem_of_filter (fun z => key z = key y)).
          rewrite (Hf (key y)), filter_cons_True by done. left. }
        apply elem_of_cons in Hin as [->|Hin]; [apply leb_refl|].
        by eapply Forall_forall in Hx.
      - assert (x ∈ y :: l2) as Hin.
        { eapply (list_elem_of_filter (fun z => key z = key x)).
          rewrite <- (Hf (key x)), filter_cons_True by done. left. }
        apply elem_of_cons in Hin as [->|Hin]; [apply leb_refl|].
        by eapply Forall_forall in Hy. }
    pose proof (Hf (key x)) as Hh.
    rewrite (filter_cons_True _ x), (filter_cons_True _ y) in Hh by done.
    injection Hh as <- _. f_equal. apply IH; [done|]. intros k.
    specialize (Hf k). rewrite !filter_cons in Hf.
    destruct (decide (key x = k)); [by injection Hf|done].
Qed.

(** So [sorted] is what any stable sort by [key] returns. *)
Lemma sorted_unique (l l' : list A) :
  StronglySorted (key_le key) l' ->
  (forall k, filter (fun y => key y = k) l' = filter (fun y => key y = k) l) ->
  l' = sorted key l.
Proof.
  intros Hs Hf. apply stable_order_unique; [done | apply sorted_ordered|].
  intros k. by rewrite sorted_stable.
Qed.

End SortedFacts.

(** ** Chunks *)

Lemma range_0_length (n : nat) : length (range 0 n 100) = (n + 99) / 100.
Proof.
  unfold range. rewrite length_map, length_seq. f_equal. lia.
Qed.

Lemma take_succ_chunk {A : Type} (s m : nat) (l : list A) :
  take (m * s) l ++ take s (drop (m * s) l) = take (S m * s) l.
Proof.
  replace (S m * s) with (m * s + s) by lia.
  generalize (m * s) as a. intros a. revert l.
  induction a as [|a IH]; intros l; simpl.
  - by rewrite drop_0.
  - destruct l as [|x l]; simpl; [by rewrite take_nil|].
    by rewrite IH.
Qed.

Lemma concat_slices {A : Type} (s m : nat) (l : list A) :
  concat (List.map (fun i => take s (drop i l)) (List.map (fun k => 0 + k * s) (seq 0 m)))
  = take (m * s) l.
Proof.
  induction m as [|m IH].
  - reflexivity.
  - rewrite seq_S, !map_app, concat_app, IH. simpl.
    rewrite app_nil_r. apply take_succ_chunk.
Qed.

Lemma chunks_concat (ids : list string) : concat (chunks ids) = ids.
Proof.
  unfold chunks, range. rewrite concat_slices. apply take_ge.
  replace (length ids - 0 + 100 - 1) with (length ids + 99) by lia.
  pose proof (Nat.div_mod_eq (length ids + 99) 100) as H.
  pose proof (Nat.mod_upper_bound (length ids + 99) 100). lia.
Qed.

Lemma chunks_length (ids : list string) : length (chunks ids) = (length ids + 99) / 100.
Proof. unfold chunks. rewrite length_map. apply range_0_length. Qed.


(** ** Traces *)

Lemma writes_app (a b : list event) : writes (a ++ b) = writes a ++ writes b.
Proof. apply List.filter_app. Qed.

Lemma page_requests_app (a b : list event) :
  page_requests (a ++ b) = page_requests a ++ page_requests b.
Proof. apply List.filter_app. Qed.

Lemma writes_added (pid : string) (cs : list (list string)) :
  writes (List.map (added pid) cs) = List.map (added pid) cs.
Proof. unfold writes. induction cs as [|c cs IH]; simpl; [done|]. by rewrite IH. Qed.

Lemma for_each_map {A B : Type} (f : A -> B) (l : list A) (body : B -> M unit) :
  for_each (List.map f l) body = for_each l (fun x => body (f x)).
Proof. induction l as [|x l IH]; simpl; [done|]. by rewrite IH. Qed.

(** ** [update_spotify_playlist] *)

Section Update.
Context (sv : services) (pid : string).

(** The chunk loop when the service accepts every chunk. *)
Lemma add_chunks_accepted (cs : list (list string)) (st : state) :
  accepts sv st (length cs) ->
  for_each cs (sp_playlist_add_items sv pid) st
  = (Ret tt, {| trace := trace st ++ List.map (added pid) cs;
                playlist := playlist st ++ concat cs |}).
Proof.
  revert st. induction cs as [|c cs IH]; intros st Hacc; simpl.
  - unfold ret. destruct st; simpl. by rewrite !app_nil_r.
  - pose proof (Hacc 0 ltac:(simpl; lia)) as H0. rewrite Nat.add_0_r in H0.
    unfold bind at 1, sp_playlist_add_items at 1. rewrite H0. simpl.
    rewrite IH.
    + simpl. f_equal. f_equal; by rewrite <- app_assoc.
    + intros j Hj. simpl. rewrite writes_app, length_app. simpl.
      rewrite <- Nat.add_assoc. apply Hacc. simpl. lia.
Qed.

(** The chunk loop when chunk [j] is the first one refused. *)
Lemma add_chunks_refused (cs : list (list string)) (j : nat) (c : list string) (e : exn)
    (st : state) :
  cs !! j = Some c ->
  accepts sv st j ->
  playlist_write sv (length (writes (trace st)) + j) = Raises e ->
  for_each cs (sp_playlist_add_items sv pid) st
  = (Exc e, {| trace := trace st ++ List.map (added pid) (take j cs)
                          ++ [PlaylistAddItems pid c (Raises e)];
               playlist := playlist st ++ concat (take j cs) |}).
Proof.
  revert j st. induction cs as [|c0 cs IH]; intros j st Hc Hacc He; [done|].
  destruct j as [|j]; simpl in *.
  - injection Hc as ->. unfold bind, sp_playlist_add_items.
    rewrite Nat.add_0_r in He. rewrite He. simpl. by rewrite app_nil_r.
  - pose proof (Hacc 0 ltac:(lia)) as H0. rewrite Nat.add_0_r in H0.
    unfold bind at 1, sp_playlist_add_items at 1. rewrite H0. simpl.
    rewrite (IH j _ Hc).
    + simpl. f_equal. f_equal; by rewrite <- app_assoc.
    + intros i Hi. simpl. rewrite writes_app, length_app. simpl.
      rewrite <- Nat.add_assoc. apply Hacc. lia.
    + simpl. rewrite writes_app, length_app. simpl.
      rewrite <- Nat.add_assoc. exact He.
Qed.

Lemma chunk_loop (ids : list string) :
  for_each (range 0 (length ids) 100)
    (fun i => sp_playlist_add_items sv pid (take 100 (drop i ids)))
  = for_each (chunks ids) (sp_playlist_add_items sv pid).
Proof. unfold chunks. by rewrite for_each_map. Qed.

Lemma update_accepted (tracks : list Spotify.track) (st : state) :
  tracks <> [] ->
  accepts sv st (1 + length (chunks (sorted_ids tracks))) ->
  update_spotify_playlist sv pid tracks st
  = (Ret tt,
     {| trace := trace st ++ update_header ++ [replaced pid]
                   ++ List.map (added pid) (chunks (sorted_ids tracks))
                   ++ [Print success_line];
        playlist := sorted_ids tracks |}).
Proof.
  intros Hne Hacc. destruct tracks as [|t tracks]; [done|].
  pose proof (Hacc 0 ltac:(lia)) as H0. rewrite Nat.add_0_r in H0.
  unfold update_spotify_playlist.
  fold (sorted_ids (t :: tracks)). set (ids := sorted_ids (t :: tracks)) in *.
  unfold bind at 1 2, print at 1 2, emit, try_except.
  unfold bind at 1. unfold sp_playlist_replace_items. cbn [log trace playlist].
  rewrite !writes_app, !length_app. cbn [writes List.filter is_write length].
  rewrite !Nat.add_0_r, H0.
  unfold bind at 1. rewrite chunk_loop.
  rewrite add_chunks_accepted.
  - unfold print, emit, log, set_playlist, update_header, replaced. simpl.
    rewrite chunks_concat. f_equal. f_equal.
    rewrite <- !app_assoc. simpl. reflexivity.
  - intros j Hj. unfold set_playlist, log. simpl.
    rewrite !writes_app, !length_app. simpl.
    rewrite Nat.add_0_r, <- !Nat.add_assoc. apply Hacc. simpl. lia.
Qed.

Lemma update_replace_refused (tracks : list Spotify.track) (st : state) (e : exn) :
  tracks <> [] ->
  playlist_write sv (length (writes (trace st))) = Raises e ->
  update_spotify_playlist sv pid tracks st
  = (Ret tt,
     {| trace := trace st ++ update_header
                   ++ [PlaylistReplaceItems pid [] (Raises e); Print (error_line e)];
        playlist := playlist st |}).
Proof.
  intros Hne He. destruct tracks as [|t tracks]; [done|].
  unfold update_spotify_playlist.
  unfold bind at 1 2, print at 1 2, emit, try_except.
  unfold bind at 1. unfold sp_playlist_replace_items. cbn [log trace playlist].
  rewrite !writes_app, !length_app. cbn [writes List.filter is_write length].
  rewrite !Nat.add_0_r, He.
  unfold print, emit, log, update_header, error_line. simpl.
  f_equal. f_equal. by rewrite <- !app_assoc.
Qed.

Lemma update_add_refused (tracks : list Spotify.track) (st : state)
    (j : nat) (c : list string) (e : exn) :
  tracks <> [] ->
  chunks (sorted_ids tracks) !! j = Some c ->
  accepts sv st (1 + j) ->
  playlist_write sv (length (writes (trace st)) + (1 + j)) = Raises e ->
  update_spotify_playlist sv pid tracks st
  = (Ret tt,
     {| trace := trace st ++ update_header ++ [replaced pid]
                   ++ List.map (added pid) (take j (chunks (sorted_ids tracks)))
                   ++ [PlaylistAddItems pid c (Raises e); Print (error_line e)];
        playlist := concat (take j (chunks (sorted_ids tracks))) |}).
Proof.
  intros Hne Hc Hacc He. destruct tracks as [|t tracks]; [done|].
  pose proof (Hacc 0 ltac:(lia)) as H0. rewrite Nat.add_0_r in H0.
  unfold update_spotify_playlist.
  fold (sorted_ids (t :: tracks)). set (ids := sorted_ids (t :: tracks)) in *.
  unfold bind at 1 2, print at 1 2, emit, try_except.
  unfold bind at 1. unfold sp_playlist_replace_items. cbn [log trace playlist].
  rewrite !writes_app, !length_app. cbn [writes List.filter is_write length].
  rewrite !Nat.add_0_r, H0.
  unfold bind at 1. rewrite chunk_loop.
  rewrite (add_chunks_refused _ j c e).
  - unfold print, emit, log, set_playlist, update_header, replaced, error_line. simpl.
    f_equal. f_equal. trace_eq.
  - exact Hc.
  - intros i Hi. unfold set_playlist, log. simpl.
    rewrite !writes_app, !length_app. simpl.
    rewrite Nat.add_0_r, <- !Nat.add_assoc. apply Hacc. lia.
  - unfold set_playlist, log. simpl.
    rewrite !writes_app, !length_app. simpl.
    rewrite Nat.add_0_r, <- !Nat.add_assoc. exact He.
Qed.

End Update.


(** ** The reconciler: claims about [update_spotify_playlist] *)

(** C8. With an empty list of matched tracks [update_spotify_playlist] only
    prints that there is nothing to add: it makes no replace and no append
    call and the destination playlist keeps its contents. *)
Theorem update_empty_is_noop (sv : services) (pid : string) (st : state) :
  update_spotify_playlist sv pid [] st
  = (Ret tt, {| trace := trace st ++ [Print "No tracks to add. Exiting."];
                playlist := playlist st |})
  /\ writes (trace (update_spotify_playlist sv pid [] st).2) = writes (trace st)
  /\ playlist (update_spotify_playlist sv pid [] st).2 = playlist st.
Proof.
  split; [reflexivity|]. split; [|reflexivity].
  simpl. rewrite writes_app. simpl. by rewrite app_nil_r.
Qed.

(** What the script's sort gives, in the words of the specification: the
    same tracks, in the case-insensitive order of their artist names, the
    tracks of one artist (up to case) in the order they had. *)
Lemma sorted_by_artist (tracks : list Spotify.track) :
  sorted artist_key tracks ≡ₚ tracks
  /\ StronglySorted Spec.artist_le (sorted artist_key tracks)
  /\ forall name : string,
       filter (Spec.by_artist name) (sorted artist_key tracks)
       = filter (Spec.by_artist name) tracks.
Proof.
  split; [apply sorted_perm|]. split; [exact (sorted_ordered artist_key tracks)|].
  intros name. exact (sorted_stable artist_key (Str.lower name) tracks).
Qed.

Lemma accepts_planned (sv : services) (st : state) (tracks : list Spotify.track) :
  accepts sv st (1 + (length tracks + 99) / 100) ->
  accepts sv st (1 + length (chunks (sorted_ids tracks))).
Proof.
  unfold sorted_ids. by rewrite chunks_length, length_map, sorted_length.
Qed.

(** C2. For a non-empty list of matched tracks, when the destination
    service accepts the writes (the replace and one append for every 100
    tracks), the playlist ends up holding the ids of a list [final] that
    is a rearrangement of the matched list (nothing added, nothing
    dropped), in which artist names come in case-insensitive order, and in
    which the tracks whose artist names are equal ignoring case stand in
    their original order. *)
Theorem reconciled_playlist_is_sorted (sv : services) (pid : string)
    (tracks : list Spotify.track) (st : state) :
  tracks <> [] ->
  accepts sv st (1 + (length tracks + 99) / 100) ->
  exists final : list Spotify.track,
    (update_spotify_playlist sv pid tracks st).1 = Ret tt
    /\ playlist (update_spotify_playlist sv pid tracks st).2 = List.map Spotify.id final
    /\ final ≡ₚ tracks
    /\ StronglySorted Spec.artist_le final
    /\ forall name : string,
         filter (Spec.by_artist name) final = filter (Spec.by_artist name) tracks.
Proof.
  intros Hne Hacc%accepts_planned. exists (sorted artist_key tracks).
  rewrite update_accepted by done. simpl.
  split; [done|]. split; [done|]. apply sorted_by_artist.
Qed.

Lemma reconciled_playlist_is_sorted_witness :
  exists final : list Spotify.track,
    (update_spotify_playlist (Demo.world [] Demo.no_hits Demo.write_ok (Returns "y"))
       "dest" Demo.zeta_alpha_zeta Demo.start).1 = Ret tt
    /\ playlist (update_spotify_playlist (Demo.world [] Demo.no_hits Demo.write_ok (Returns "y"))
                   "dest" Demo.zeta_alpha_zeta Demo.start).2 = List.map Spotify.id final
    /\ final ≡ₚ Demo.zeta_alpha_zeta
    /\ StronglySorted Spec.artist_le final
    /\ forall name : string,
         filter (Spec.by_artist name) final
         = filter (Spec.by_artist name) Demo.zeta_alpha_zeta.
Proof.
  apply (reconciled_playlist_is_sorted
           (Demo.world [] Demo.no_hits Demo.write_ok (Returns "y"))
           "dest" Demo.zeta_alpha_zeta Demo.start).
  - discriminate.
  - intros j _. reflexivity.
Defined.

(** The example of the specification: alpha first, then the two Zeta
    tracks in their original order; in the order of the code points Zeta
    would stand before alpha. *)
Example sort_stability_example :
  playlist (update_spotify_playlist (Demo.world [] Demo.no_hits Demo.write_ok (Returns "y"))
              "dest" Demo.zeta_alpha_zeta Demo.start).2 = ["id2"; "id1"; "id3"]
  /\ String.leb "Zeta" "alpha" = true
  /\ filter (Spec.by_artist "ZETA") Demo.zeta_alpha_zeta
     = [Spotify.Track "id1" "Zeta" "first"; Spotify.Track "id3" "Zeta" "third"].
Proof. repeat split; reflexivity. Qed.



Example chunking_250 :
  List.map length (chunks (sorted_ids (Demo.matched 250))) = [100; 100; 50]
  /\ writes (trace (update_spotify_playlist
                      (Demo.world [] Demo.no_hits Demo.write_ok (Returns "y"))
                      "dest" (Demo.matched 250) Demo.start).2)
     = replaced "dest" :: List.map (added "dest") (chunks (sorted_ids (Demo.matched 250))).
Proof. split; vm_compute; reflexivity. Qed.

Lemma error_line_not_success (e : exn) : Print (error_line e) <> Print success_line.
Proof. unfold error_line, success_line. discriminate. Qed.

(** C9. When planned write [k] (0 is the replace, [k >= 1] the k-th chunk
    append) is the first to raise, with text [e]: the function returns
    after reporting [e] and without printing the success line; the write
    calls made are the [k] accepted ones and the refused one, nothing
    after it; and the playlist holds what the accepted writes put there --
    its old contents when the replace was refused, otherwise the chunks
    appended so far. *)
Theorem update_failure_stops_and_reports (sv : services) (pid : string)
    (tracks : list Spotify.track) (st : state)
    (k : nat) (call : reply unit -> event) (e : exn) :
  tracks <> [] ->
  planned_writes pid (sorted_ids tracks) !! k = Some call ->
  accepts sv st k ->
  playlist_write sv (length (writes (trace st)) + k) = Raises e ->
  exists evs : list event,
    update_spotify_playlist sv pid tracks st
    = (Ret tt, {| trace := trace st ++ evs;
                  playlist := applied (playlist st) k (sorted_ids tracks) |})
    /\ writes evs
       = List.map (fun c => c (Returns tt)) (take k (planned_writes pid (sorted_ids tracks)))
         ++ [call (Raises e)]
    /\ last evs = Some (Print (error_line e))
    /\ Print success_line ∉ evs.
Proof.
  intros Hne Hcall Hacc He. destruct k as [|j]; simpl in Hcall.
  - injection Hcall as <-. rewrite Nat.add_0_r in He.
    rewrite (update_replace_refused sv pid tracks st e) by done.
    eexists. split; [reflexivity|]. split; [reflexivity|].
    split; [reflexivity|].
    unfold update_header. intros Hin.
    repeat (apply elem_of_cons in Hin as [Hin | Hin];
            [by (discriminate || apply (error_line_not_success e))|]).
    by apply elem_of_nil in Hin.
  - apply list_lookup_fmap_Some in Hcall as (c & -> & Hc).
    rewrite (update_add_refused sv pid tracks st j c e) by done.
    eexists. split; [reflexivity|].
    split.
    { rewrite !writes_app, writes_added. unfold writes, update_header. simpl.
      rewrite firstn_map, !map_map. reflexivity. }
    split.
    { rewrite !app_assoc.
      change [PlaylistAddItems pid c (Raises e); Print (error_line e)]
        with ([PlaylistAddItems pid c (Raises e)] ++ [Print (error_line e)]).
      rewrite app_assoc. apply last_snoc. }
    unfold update_header. intros Hin.
    rewrite !elem_of_app in Hin. destruct Hin as [Hin | [Hin | [Hin | Hin]]].
    + repeat (apply elem_of_cons in Hin as [Hin | Hin]; [discriminate|]).
      by apply elem_of_nil in Hin.
    + apply list_elem_of_singleton in Hin. discriminate.
    + apply list_elem_of_fmap in Hin as (c' & Heq & _). discriminate.
    + repeat (apply elem_of_cons in Hin as [Hin | Hin];
              [by (discriminate || apply (error_line_not_success e))|]).
      by apply elem_of_nil in Hin.
Qed.

Lemma update_failure_stops_and_reports_witness :
  exists evs : list event,
    update_spotify_playlist (Demo.world [] Demo.no_hits (Demo.write_fails_at 2) (Returns "y"))
      "dest" (Demo.matched 250) Demo.start
    = (Ret tt, {| trace := trace Demo.start ++ evs;
                  playlist := applied (playlist Demo.start) 2 (sorted_ids (Demo.matched 250)) |})
    /\ writes evs
       = List.map (fun c => c (Returns tt))
           (take 2 (planned_writes "dest" (sorted_ids (Demo.matched 250))))
         ++ [PlaylistAddItems "dest" (take 100 (drop 100 (sorted_ids (Demo.matched 250))))
               (Raises "HTTP 502")]
    /\ last evs = Some (Print (error_line "HTTP 502"))
    /\ Print success_line ∉ evs.
Proof.
  apply (update_failure_stops_and_reports
           (Demo.world [] Demo.no_hits (Demo.write_fails_at 2) (Returns "y"))
           "dest" (Demo.matched 250) Demo.start 2
           (PlaylistAddItems "dest" (take 100 (drop 100 (sorted_ids (Demo.matched 250)))))
           "HTTP 502").
  - discriminate.
  - vm_compute. reflexivity.
  - intros [|[|j]] Hj; [reflexivity | reflexivity | lia].
  - reflexivity.
Defined.

(** What the partial update of the witness leaves behind: the first chunk
    only, and two of the three appends attempted. *)
Example partial_update_example :
  let r := update_spotify_playlist
             (Demo.world [] Demo.no_hits (Demo.write_fails_at 2) (Returns "y"))
             "dest" (Demo.matched 250) Demo.start in
  r.1 = Ret tt
  /\ playlist r.2 = take 100 (sorted_ids (Demo.matched 250))
  /\ List.map (fun ev => match ev with
                        | PlaylistReplaceItems _ items r => (length items, r)
                        | PlaylistAddItems _ items r => (length items, r)
                        | _ => (0, Returns tt)
                        end) (writes (trace r.2))
     = [(0, Returns tt); (100, Returns tt); (100, Raises "HTTP 502")].
Proof. vm_compute. repeat split; reflexivity. Qed.

(** ** The matcher: claims about [find_spotify_tracks] *)

Section Matcher.
Context (sv : services).

Lemma search_one_lookup (total i : nat) (track : Apple.track)
    (found : list Spotify.track) (not_found : list string) (st : state) :
  exists (out : MatchResult) (seg : list event),
    search_one sv total i track found not_found st
    = (Ret (found ++ matched_of [out], not_found ++ unmatched_of [out]),
       {| trace := trace st ++ seg; playlist := playlist st |})
    /\ lookup track seg out.
Proof.
  unfold search_one, lookup.
  unfold bind, try_except, sp_search, print, sleep, emit, of_reply, ret, raise.
  cbn [log trace playlist].
  (* [leaf r]: the lookup ended with [r] as the answer of its last search *)
  pose (leaf := fun r : reply (list Spotify.item) => outcome_of_reply track r).
  assert (forall (l : list Spotify.track), l ++ [] = l) as Hf by apply app_nil_r.
  assert (forall (l : list string), l ++ [] = l) as Hn by apply app_nil_r.
  destruct (search sv _ _) as [[|top rest]|e] eqn:E1.
  - (* nothing found with the literal title *)
    cbn [log trace playlist].
    destruct (decide (cleaned_name (Apple.name track) = Apple.name track)) as [Hc|Hc].
    + exists (leaf (Returns [])). eexists. split.
      * cbn. rewrite (Hf found). unfold log. cbn. f_equal. f_equal. trace_eq.
      * exists (Returns []). cbn. auto.
    + cbn [log trace playlist].
      destruct (search sv _ (query (cleaned_name _) _)) as [[|top rest]|e] eqn:E2.
      * exists (leaf (Returns [])). eexists. split.
        -- cbn. rewrite (Hf found). unfold log. cbn. f_equal. f_equal. trace_eq.
        -- exists (Returns []). cbn. auto.
      * destruct (Spotify.item_artists top) as [|artist0 arts] eqn:Ha;
          exists (leaf (Returns (top :: rest))); eexists;
          (split;
           [ cbn; rewrite Ha; cbn; rewrite ?(Hf found), ?(Hn not_found);
             unfold log; cbn; f_equal; f_equal; trace_eq
           | exists (Returns (top :: rest)); cbn; auto ]).
      * exists (leaf (Raises e)). eexists. split.
        -- cbn. rewrite (Hf found). unfold log. cbn. f_equal. f_equal. trace_eq.
        -- exists (Raises e). cbn. auto.
  - destruct (Spotify.item_artists top) as [|artist0 arts] eqn:Ha;
      exists (leaf (Returns (top :: rest))); eexists;
      (split;
       [ cbn; rewrite Ha; cbn; rewrite ?(Hf found), ?(Hn not_found);
         unfold log; cbn; f_equal; f_equal; trace_eq
       | exists (Returns (top :: rest)); cbn; auto ]).
  - exists (leaf (Raises e)). eexists. split.
    + cbn. rewrite (Hf found). unfold log. cbn. f_equal. f_equal. trace_eq.
    + exists (Raises e). cbn. auto.
Qed.

Lemma omap_snoc {A B : Type} (f : A -> option B) (x : A) (l : list A) (acc : list B) :
  (acc ++ omap f [x]) ++ omap f l = acc ++ omap f (x :: l).
Proof. simpl. destruct (f x); [trace_eq | by rewrite app_nil_r]. Qed.

Lemma search_all_lookup (total : nat) (tracks : list Apple.track) :
  forall (i : nat) (found : list Spotify.track) (not_found : list string) (st : state),
  exists (outs : list MatchResult) (segs : list (list event)),
    search_all sv total i tracks found not_found st
    = (Ret (found ++ matched_of outs, not_found ++ unmatched_of outs),
       {| trace := trace st ++ concat segs; playlist := playlist st |})
    /\ Forall3 lookup tracks segs outs.
Proof.
  induction tracks as [|track tracks IH]; intros i found not_found st.
  - exists [], []. simpl. unfold ret. rewrite !app_nil_r. destruct st.
    split; [done | constructor].
  - simpl. unfold bind.
    destruct (search_one_lookup total i track found not_found st)
      as (out & seg & -> & Hl).
    cbn [fst snd].
    edestruct IH as (outs & segs & -> & HF).
    exists (out :: outs), (seg :: segs). split; [|by constructor].
    cbn [trace playlist concat]. unfold matched_of, unmatched_of.
    by rewrite !omap_snoc, <- app_assoc.
Qed.

Lemma lookup_raised (track : Apple.track) (seg : list event) (out : MatchResult) :
  lookup track seg out -> search_raised seg ->
  out = Unmatched (search_error_descriptor track).
Proof.
  intros (r & Hs & -> & _) (q & e & Hin).
  assert (Search q (Raises e) ∈ searches seg) as Hin'.
  { apply list_elem_of_In, List.filter_In. split; [by apply list_elem_of_In | done]. }
  destruct Hs as [Hs | [_ Hs]]; rewrite Hs in Hin'.
  - apply list_elem_of_singleton in Hin'. by injection Hin' as _ <-.
  - apply elem_of_cons in Hin' as [Hin' | Hin']; [discriminate|].
    apply list_elem_of_singleton in Hin'. by injection Hin' as _ <-.
Qed.

Lemma outcomes_split (outs : list MatchResult) :
  length (matched_of outs) + length (unmatched_of outs) = length outs.
Proof.
  induction outs as [|[t|d] outs IH]; simpl; [done| |]; unfold matched_of, unmatched_of in *;
    lia.
Qed.

End Matcher.

(** C6. For every list of source tracks [find_spotify_tracks] returns
    normally with one outcome per track, in input order: the first result
    is the matched outcomes and the second the unmatched ones, each in that
    order, so their lengths add up to the number of tracks.  The trace
    splits into one segment per track; a track in whose segment a search
    raised gets the search-error descriptor, and the tracks after it are
    still looked up. *)
Theorem find_spotify_tracks_total (sv : services) (tracks : list Apple.track) (st : state) :
  exists (outs : list MatchResult) (segs : list (list event)),
    find_spotify_tracks sv tracks st
    = (Ret (matched_of outs, unmatched_of outs),
       {| trace := trace st ++ [Print "-> Searching for tracks on Spotify..."]
                     ++ concat segs ++ [Print (nl +:+ "-> Search complete.")];
          playlist := playlist st |})
    /\ length outs = length tracks
    /\ Forall3 lookup tracks segs outs
    /\ Forall3 (fun track seg out =>
                 search_raised seg -> out = Unmatched (search_error_descriptor track))
         tracks segs outs
    /\ length (matched_of outs) + length (unmatched_of outs) = length tracks.
Proof.
  unfold find_spotify_tracks, bind, print, emit.
  edestruct (search_all_lookup sv (length tracks) tracks 0 [] [])
    as (outs & segs & -> & HF).
  exists outs, segs.
  assert (length outs = length tracks) as Hlen.
  { symmetry. eapply Forall3_length_lr, HF. }
  split.
  { unfold ret, log. cbn. f_equal. f_equal. trace_eq. }
  split; [exact Hlen|]. split; [exact HF|]. split.
  - eapply Forall3_impl; [exact HF|]. intros track seg out Hl Hr.
    by eapply lookup_raised.
  - by rewrite outcomes_split.
Qed.

(** A run with a hit, a hit after cleaning, a miss and a failing search. *)
Example find_spotify_tracks_example :
  let find := fun (_ : nat) (q : string) =>
    if decide (q = "track:One artist:A") then Returns [Spotify.Item "id1" "One" ["A"]]
    else if decide (q = "track:Two artist:B") then Returns [Spotify.Item "id2" "Two" ["B"; "X"]]
    else if decide (q = "track:Four artist:D") then Raises "timeout"
    else Returns [] in
  (find_spotify_tracks (Demo.world [] find Demo.write_ok (Returns "y"))
     [Apple.Track "A" "One"; Apple.Track "B" "Two (feat. X)"; Apple.Track "C" "Three";
      Apple.Track "D" "Four"; Apple.Track "A" "One"] Demo.start).1
  = Ret ([Spotify.Track "id1" "A" "One"; Spotify.Track "id2" "B" "Two";
          Spotify.Track "id1" "A" "One"],
         ["C - Three"; "D - Four (Error during search)"]).
Proof. vm_compute. reflexivity. Qed.

(** ** Title cleaning *)

Example cleaned_feat : cleaned_name "Song (feat. Y)" = "Song".
Proof. reflexivity. Qed.

Example cleaned_remix : cleaned_name "Song [Remix] (Live) x" = "Song x".
Proof. reflexivity. Qed.

Example cleaned_unclosed : cleaned_name "Song (unclosed" = "Song (unclosed".
Proof. reflexivity. Qed.

Example cleaned_crossing : cleaned_name " a ( b [ c ) d ] e" = "a d ] e".
Proof. reflexivity. Qed.

Example cleaned_nested :
  cleaned_name "x [a(b]c) y" = "xc) y" /\ cleaned_name "(()) [[]]" = ")]".
Proof. split; reflexivity. Qed.

Example cleaned_control_space :
  cleaned_name ("a" +:+ String "028"%char "(b)" +:+ String "010"%char "c ") = "a" +:+ nl +:+ "c".
Proof. reflexivity. Qed.

Example lower_mixed : Str.lower "Zeta AB" = "zeta ab".
Proof. reflexivity. Qed.

Lemma app_String (x : ascii) (a s : string) : String x a +:+ s = String x (a +:+ s).
Proof. reflexivity. Qed.

Lemma app_empty (s : string) : EmptyString +:+ s = s.
Proof. reflexivity. Qed.

Lemma lstrip_suffix (s : string) : exists ws : string, s = ws +:+ Str.lstrip s.
Proof.
  induction s as [|x s [ws IH]]; simpl.
  - by exists EmptyString.
  - destruct (Str.isspace x).
    + exists (String x ws). by rewrite app_String, <- IH.
    + by exists EmptyString.
Qed.

Lemma after_close_split (close : ascii) (s rest : string) :
  Re.after_close close s = Some rest -> exists b : string, s = b +:+ String close rest.
Proof.
  induction s as [|x s IH]; simpl; [done|].
  destruct (Ascii.eqb_spec x close) as [->|Hx]; intros H.
  - injection H as ->. by exists EmptyString.
  - destruct (IH H) as [b ->]. by exists (String x b).
Qed.

Lemma match_group_has_group (open close : ascii) (s rest : string) :
  Re.match_group open close s = Some rest -> has_group open close s.
Proof.
  unfold Re.match_group. destruct (lstrip_suffix s) as [ws Hws].
  destruct (Str.lstrip s) as [|x s'] eqn:E; [done|].
  destruct (Ascii.eqb_spec x open) as [->|Hx]; [|done].
  intros [b ->]%after_close_split. by exists ws, b, rest.
Qed.

Lemma has_group_tail (open close x : ascii) (s : string) :
  has_group open close s -> has_group open close (String x s).
Proof. intros (a & b & c & ->). by exists (String x a), b, c. Qed.

Lemma plain_tail (x : ascii) (s : string) : plain (String x s) -> plain s.
Proof. intros [H1 H2]. split; intros H; [apply H1 | apply H2]; by apply has_group_tail. Qed.

Lemma plain_no_match (s : string) : plain s -> Re.match_here s = None.
Proof.
  intros [H1 H2]. unfold Re.match_here.
  destruct (Re.match_group "(" ")" s) as [r|] eqn:E1.
  { exfalso. apply H1. by eapply match_group_has_group. }
  destruct (Re.match_group "[" "]" s) as [r|] eqn:E2; [|done].
  exfalso. apply H2. by eapply match_group_has_group.
Qed.

Lemma sub_from_plain (steps : nat) (s : string) : plain s -> Re.sub_from steps s = s.
Proof.
  revert s. induction steps as [|steps IH]; intros s Hs; simpl; [done|].
  destruct s as [|x s]; [done|].
  rewrite (plain_no_match _ Hs). f_equal. apply IH. by eapply plain_tail.
Qed.

Lemma occurs_app (c : ascii) (a b : string) : occurs c (a +:+ String c b) = true.
Proof.
  induction a as [|x a IH].
  - rewrite app_empty. simpl. by rewrite Ascii.eqb_refl.
  - rewrite app_String. simpl. by rewrite IH, orb_true_r.
Qed.

Lemma has_groupb_complete (open close : ascii) (s : string) :
  has_group open close s -> has_groupb open close s = true.
Proof.
  intros (a & b & c & ->). induction a as [|x a IH].
  - rewrite app_empty. simpl. by rewrite Ascii.eqb_refl, occurs_app.
  - rewrite app_String. simpl. by rewrite IH, orb_true_r.
Qed.

Lemma plainb_plain (s : string) : plainb s = true -> plain s.
Proof.
  unfold plainb. intros [H1 H2]%andb_prop. split; intros H%has_groupb_complete.
  - by rewrite H in H1.
  - by rewrite H in H2.
Qed.

(** A match is never empty, so the step count [String.length s] that
    [Re.sub] gives to [Re.sub_from] never runs out: more steps change
    nothing. *)
Lemma lstrip_length (s : string) : String.length (Str.lstrip s) <= String.length s.
Proof.
  induction s as [|x s IH]; simpl; [done|].
  destruct (Str.isspace x); simpl; lia.
Qed.

Lemma after_close_shorter (close : ascii) (s rest : string) :
  Re.after_close close s = Some rest -> String.length rest < String.length s.
Proof.
  induction s as [|x s IH]; simpl; [done|].
  destruct (Ascii.eqb x close); intros H.
  - injection H as ->. lia.
  - specialize (IH H). lia.
Qed.

Lemma match_here_shorter (s rest : string) :
  Re.match_here s = Some rest -> String.length rest < String.length s.
Proof.
  assert (forall open close, Re.match_group open close s = Some rest ->
                             String.length rest < String.length s) as Hg.
  { intros open close. unfold Re.match_group.
    pose proof (lstrip_length s) as Hl.
    destruct (Str.lstrip s) as [|x s'] eqn:E; [done|].
    destruct (Ascii.eqb x open); [|done].
    intros H%after_close_shorter. simpl in Hl. lia. }
  unfold Re.match_here.
  destruct (Re.match_group "(" ")" s) as [r|] eqn:E1.
  - intros [= <-]. by eapply Hg.
  - apply Hg.
Qed.

Lemma sub_from_enough (n m : nat) (s : string) :
  String.length s <= n -> String.length s <= m -> Re.sub_from n s = Re.sub_from m s.
Proof.
  revert m s. induction n as [|n IH]; intros m s Hn Hm.
  - destruct s; [by destruct m | simpl in Hn; lia].
  - destruct m as [|m]; [destruct s; [done | simpl in Hm; lia]|].
    simpl. destruct s as [|x s]; [done|].
    destruct (Re.match_here (String x s)) as [rest|] eqn:E.
    + apply match_here_shorter in E. simpl in *. apply IH; lia.
    + f_equal. simpl in *. apply IH; lia.
Qed.

(** C7, as stated, fails: a title without parenthetical or bracketed part
    but with a trailing space is changed by the cleaning step (the [strip]
    removes the space), and the second search is made. *)
Lemma trailing_space_title_is_searched_twice :
  plain "Song "
  /\ cleaned_name "Song " = "Song"
  /\ cleaned_name "Song " <> "Song "
  /\ searches (trace (search_one (Demo.world [] Demo.no_hits Demo.write_ok (Returns "y"))
                        1 0 (Apple.Track "Artist" "Song ") [] [] Demo.start).2)
     = [Search "track:Song  artist:Artist" (Returns []);
        Search "track:Song artist:Artist" (Returns [])].
Proof.
  split; [by apply plainb_plain|]. split; [reflexivity|]. split; [discriminate|].
  reflexivity.
Qed.

(** C7, amended.  For a title with no parenthetical and no bracketed part
    and no whitespace at either end, the cleaning step returns the title
    unchanged, and the lookup of a track with that title makes the first
    search only. *)
Theorem plain_trimmed_title_is_searched_once (name : string) :
  plain name ->
  Str.strip name = name ->
  cleaned_name name = name
  /\ forall (sv : services) (total i : nat) (artist : string)
       (found : list Spotify.track) (not_found : list string) (st : state),
     exists (seg : list event) (r : reply (list Spotify.item)),
       trace (search_one sv total i (Apple.Track artist name) found not_found st).2
       = trace st ++ seg
       /\ searches seg = [Search (query name artist) r].
Proof.
  intros Hp Hs.
  assert (cleaned_name name = name) as Hc.
  { unfold cleaned_name, Re.sub. by rewrite sub_from_plain. }
  split; [exact Hc|]. intros sv total i artist found not_found st.
  destruct (search_one_lookup sv total i (Apple.Track artist name) found not_found st)
    as (out & seg & -> & r & Hsr & _).
  exists seg, r. split; [reflexivity|].
  destruct Hsr as [Hsr | [Hne _]]; [exact Hsr | done].
Qed.

Lemma plain_trimmed_title_is_searched_once_witness :
  cleaned_name "Bohemian Rhapsody" = "Bohemian Rhapsody"
  /\ forall (sv : services) (total i : nat) (artist : string)
       (found : list Spotify.track) (not_found : list string) (st : state),
     exists (seg : list event) (r : reply (list Spotify.item)),
       trace (search_one sv total i (Apple.Track artist "Bohemian Rhapsody")
                found not_found st).2
       = trace st ++ seg
       /\ searches seg = [Search (query "Bohemian Rhapsody" artist) r].
Proof.
  apply (plain_trimmed_title_is_searched_once "Bohemian Rhapsody").
  - apply plainb_plain. reflexivity.
  - reflexivity.
Defined.

(** ** The fetcher: claims about [get_apple_music_tracks] *)

Lemma harmless_nil : harmless [].
Proof. by split. Qed.

Lemma harmless_app (a b : list event) : harmless a -> harmless b -> harmless (a ++ b).
Proof.
  intros [Ha1 Ha2] [Hb1 Hb2]. split.
  - by rewrite writes_app, Ha1, Hb1.
  - by rewrite List.filter_app, Ha2, Hb2.
Qed.

Lemma harmless_cons (e : event) (evs : list event) :
  is_write e = false -> is_input e = false -> harmless evs -> harmless (e :: evs).
Proof.
  intros H1 H2 [Ha Hb]. split; unfold writes in *; simpl; by rewrite ?H1, ?H2.
Qed.

Lemma process_page_passes (page_of_tracks : list raw_track) (all_tracks : list Apple.track) :
  forallb passes page_of_tracks = true ->
  process_page page_of_tracks all_tracks = Returns (all_tracks ++ omap yields page_of_tracks).
Proof.
  revert all_tracks.
  induction page_of_tracks as [|track rest IH]; intros all_tracks; cbn [forallb process_page].
  - intros _. simpl. by rewrite app_nil_r.
  - intros [Ht Hrest]%andb_prop.
    change (omap yields (track :: rest))
      with (match yields track with Some y => y :: omap yields rest | None => omap yields rest end).
    unfold passes, yields in *.
    destruct (usable track) as [[t|]|e]; [| |done]; rewrite IH by done;
      [by rewrite <- app_assoc | done].
Qed.

Lemma process_page_raises (page_of_tracks : list raw_track) (all_tracks : list Apple.track) :
  forallb passes page_of_tracks = false ->
  exists e, process_page page_of_tracks all_tracks = Raises e.
Proof.
  revert all_tracks.
  induction page_of_tracks as [|track rest IH]; intros all_tracks; cbn [forallb process_page];
    [done|].
  unfold passes at 1. destruct (usable track) as [[t|]|e]; cbn [andb]; eauto.
Qed.

Lemma process_page_returns (page_of_tracks : list raw_track)
    (all_tracks tracks : list Apple.track) :
  process_page page_of_tracks all_tracks = Returns tracks ->
  tracks = all_tracks ++ omap yields page_of_tracks.
Proof.
  destruct (forallb passes page_of_tracks) eqn:Hpass.
  - rewrite (process_page_passes _ _ Hpass). by intros [= <-].
  - destruct (process_page_raises _ all_tracks Hpass) as [e ->]. done.
Qed.

Lemma raising_record_fails_page (page_of_tracks : list raw_track) (track : raw_track)
    (e : exn) :
  track ∈ page_of_tracks -> usable track = Raises e -> forallb passes page_of_tracks = false.
Proof.
  intros Hin He. destruct (forallb passes page_of_tracks) eqn:Hpass; [|done].
  apply list_elem_of_In in Hin.
  pose proof (proj1 (forallb_forall _ _) Hpass track Hin) as Ht.
  unfold passes in Ht. by rewrite He in Ht.
Qed.

(** On a record that conforms to the API's description, lines 48-51 do
    what the specification says: no exception, and the entry or nothing. *)
Lemma conforms_usable (track : raw_track) :
  Spec.conforms track -> usable track = Returns (Spec.entry track).
Proof.
  unfold Spec.conforms, usable, Spec.entry.
  destruct (track !! "attributes") as [[| | | | | |fields]|]; try done.
  intros _. cbn [Py.contains Py.getitem].
  destruct (fields !! "artistName") as [artist_name|] eqn:Ha.
  - rewrite bool_decide_eq_true_2 by by eexists.
    destruct (fields !! "name") as [title|] eqn:Hn.
    + by rewrite bool_decide_eq_true_2 by by eexists.
    + by rewrite bool_decide_eq_false_2 by by intros [? ?].
  - by rewrite bool_decide_eq_false_2 by by intros [? ?].
Qed.

Lemma conforms_passes (pl : list raw_track) :
  Forall Spec.conforms pl -> forallb passes pl = true.
Proof.
  induction 1 as [|track pl Ht _ IH]; [done|]. cbn [forallb].
  unfold passes at 1. by rewrite (conforms_usable track Ht), IH.
Qed.

Lemma conforms_yields (pl : list raw_track) :
  Forall Spec.conforms pl -> omap yields pl = Spec.usable_entries pl.
Proof.
  unfold Spec.usable_entries.
  induction 1 as [|track pl Ht _ IH]; [done|].
  change (omap yields (track :: pl))
    with (match yields track with Some y => y :: omap yields pl | None => omap yields pl end).
  change (omap Spec.entry (track :: pl))
    with (match Spec.entry track with
          | Some y => y :: omap Spec.entry pl
          | None => omap Spec.entry pl
          end).
  unfold yields at 1. by rewrite (conforms_usable track Ht), IH.
Qed.

Lemma records_received_app (a b : list event) :
  records_received (a ++ b) = records_received a ++ records_received b.
Proof. unfold records_received. by rewrite map_app, concat_app. Qed.

Section Fetcher.
Context (sv : services) (pid : string).

(** The loop follows [pagination]: the requests it makes and the way it
    ends depend on the sizes of the pages only; the tracks it returns are
    the usable records among those received. *)
Lemma fetch_pages_spec (fuel : nat) :
  forall (all_tracks : list Apple.track) (offset : nat) (st : state),
  exists (evs : list event) (r : outcome (list Apple.track)),
    fetch_pages sv fuel pid all_tracks offset st
    = (r, {| trace := trace st ++ evs; playlist := playlist st |})
    /\ page_requests evs
       = List.map (page_request sv pid) (pagination (page_sizes sv pid) fuel offset).1
    /\ harmless evs
    /\ match r with
       | Ret tracks =>
           (pagination (page_sizes sv pid) fuel offset).2 = Completed
           /\ tracks = all_tracks ++ omap yields (records_received (page_requests evs))
       | Exc _ => (pagination (page_sizes sv pid) fuel offset).2 = Failed
       | OutOfFuel => (pagination (page_sizes sv pid) fuel offset).2 = Unfinished
       end.
Proof.
  induction fuel as [|fuel IH]; intros all_tracks offset st.
  - exists [], OutOfFuel. simpl. rewrite app_nil_r. destruct st. by repeat split.
  - cbn [fetch_pages pagination].
    unfold bind at 1, am_playlist_relationship.
    fold (page_request sv pid offset).
    destruct (playlist_relationship sv pid offset) as [page_of_tracks|e] eqn:E.
    + cbn [of_reply ret]. unfold bind at 1.
      destruct (forallb passes page_of_tracks) eqn:Hpass.
      * assert (page_sizes sv pid offset = Some (length page_of_tracks)) as ->.
        { unfold page_sizes. by rewrite E; cbn; rewrite Hpass. }
        rewrite (process_page_passes _ all_tracks Hpass). cbn [of_reply ret].
        destruct (length page_of_tracks <? 100) eqn:Hlt.
        -- exists [page_request sv pid offset; Print "  > Reached the end of the playlist."].
           exists (Ret (all_tracks ++ omap yields page_of_tracks)).
           unfold bind, print, emit, ret, log. cbn.
           split; [f_equal; f_equal; trace_eq|].
           split; [done|]. split; [done|]. split; [done|].
           unfold page_request. rewrite E. cbn. by rewrite app_nil_r.
        -- unfold bind at 1 2, print, sleep, emit.
           match goal with
           | |- context [fetch_pages sv fuel pid ?a ?o ?s] =>
               destruct (IH a o s) as (evs & r & -> & Hreq & Hh & Hres)
           end.
           exists ([page_request sv pid offset;
                    Print ("  > Fetched "
                           +:+ Str.of_nat (length (all_tracks ++ omap yields page_of_tracks))
                           +:+ " tracks so far...");
                    Sleep 200] ++ evs), r.
           split.
           { unfold log. cbn. destruct r; (f_equal; f_equal; trace_eq). }
           split.
           { rewrite page_requests_app, Hreq. reflexivity. }
           split.
           { apply harmless_app; [|done]. by repeat apply harmless_cons. }
           destruct r as [tracks|e|]; cbn [fst snd]; [|done..].
           destruct Hres as [Hend ->]. split; [done|].
           rewrite page_requests_app, records_received_app, omap_app.
           unfold page_request. rewrite E. cbn.
           by rewrite app_nil_r, <- app_assoc.
      * assert (page_sizes sv pid offset = None) as ->.
        { unfold page_sizes. by rewrite E; cbn; rewrite Hpass. }
        destruct (process_page_raises _ all_tracks Hpass) as [e ->].
        exists [page_request sv pid offset], (Exc e). cbn. unfold raise, log. cbn.
        by repeat split.
    + assert (page_sizes sv pid offset = None) as ->.
      { unfold page_sizes. by rewrite E. }
      exists [page_request sv pid offset], (Exc e). cbn. unfold raise, log. cbn.
      by repeat split.
Qed.

End Fetcher.

Lemma records_received_requests (evs : list event) :
  records_received (page_requests evs) = records_received evs.
Proof.
  unfold records_received, page_requests.
  induction evs as [|e evs IH]; simpl; [done|].
  destruct e; simpl; congruence.
Qed.

Lemma offsets_requested_requests (evs : list event) :
  offsets_requested (page_requests evs) = offsets_requested evs.
Proof.
  unfold offsets_requested, page_requests.
  induction evs as [|e evs IH]; simpl; [done|].
  destruct e; simpl; first [exact IH | f_equal; exact IH].
Qed.

Lemma offsets_requested_map (sv : services) (pid : string) (offsets : list nat) :
  offsets_requested (List.map (page_request sv pid) offsets) = offsets.
Proof.
  unfold offsets_requested. induction offsets as [|o offsets IH]; simpl; [done|].
  f_equal. exact IH.
Qed.

Lemma pagination_ext (size1 size2 : nat -> option nat) (fuel : nat) :
  (forall offset, size1 offset = size2 offset) ->
  forall offset, pagination size1 fuel offset = pagination size2 fuel offset.
Proof.
  intros Hext. induction fuel as [|fuel IH]; intros offset; simpl; [done|].
  rewrite Hext. destruct (size2 offset) as [n|]; [|done].
  destruct (n <? 100); [done|]. by rewrite IH.
Qed.

(** The whole function: what it returns is decided by the connection and
    by [pagination]. *)
Lemma get_apple_music_tracks_spec (sv : services) (fuel : nat) (pid : string) (st : state) :
  exists (evs : list event) (r : outcome (option (list Apple.track))),
    get_apple_music_tracks sv fuel pid st
    = (r, {| trace := trace st ++ evs; playlist := playlist st |})
    /\ harmless evs
    /\ match apple_music sv with
       | Raises _ => page_requests evs = [] /\ r = Ret None
       | Returns _ =>
           page_requests evs
           = List.map (page_request sv pid) (pagination (page_sizes sv pid) fuel 0).1
           /\ match (pagination (page_sizes sv pid) fuel 0).2 with
              | Completed => r = Ret (Some (omap yields (records_received evs)))
              | Failed => r = Ret None
              | Unfinished => r = OutOfFuel
              end
       end.
Proof.
  unfold get_apple_music_tracks.
  unfold bind at 1, print at 1, emit, try_except.
  unfold bind at 1, am_connect.
  destruct (apple_music sv) as [u|e] eqn:Hc; cbn [of_reply ret raise].
  - unfold bind at 1, print at 1, emit.
    unfold bind at 1.
    match goal with
    | |- context [fetch_pages sv fuel pid ?a ?o ?s] =>
        destruct (fetch_pages_spec sv pid fuel a o s) as (evs & r & -> & Hreq & Hh & Hres)
    end.
    destruct r as [tracks|e|].
    + destruct Hres as [Hend ->]. eexists. eexists. split.
      { unfold print, emit, ret, log. cbn. f_equal. f_equal. trace_eq. }
      split.
      { repeat (apply harmless_cons; [done..|]).
        apply harmless_app; [done|]. by apply harmless_cons. }
      split.
      { cbn. rewrite page_requests_app. cbn. by rewrite app_nil_r. }
      rewrite Hend. cbn. do 3 f_equal.
      rewrite records_received_requests. unfold records_received. cbn.
      rewrite map_app, concat_app. cbn. by rewrite app_nil_r.
    + eexists. eexists. split.
      { unfold print, emit, ret, log. cbn. f_equal. f_equal. trace_eq. }
      split.
      { repeat (apply harmless_cons; [done..|]).
        apply harmless_app; [done|]. by apply harmless_cons. }
      split.
      { cbn. rewrite page_requests_app. cbn. by rewrite app_nil_r. }
      by rewrite Hres.
    + eexists. eexists. split.
      { unfold log. cbn. f_equal. f_equal. trace_eq. }
      split.
      { by repeat (apply harmless_cons; [done..|]). }
      split; [done|]. by rewrite Hres.
  - eexists. eexists. split.
    { unfold bind, print, emit, ret, log. cbn. f_equal. f_equal. trace_eq. }
    split; [by repeat (apply harmless_cons; [done..|])|]. done.
Qed.

(** Pagination over a playlist of [n] records served in slices of 100:
    from page [k] on, the pages up to page [n / 100] are requested, one
    after the other, and the loop completes. *)
Lemma pagination_slices (size : nat -> option nat) (n : nat) :
  (forall offset, size offset = Some (Nat.min 100 (n - offset))) ->
  forall fuel k : nat,
    k <= n / 100 -> n / 100 - k < fuel ->
    pagination size fuel (k * 100)
    = (List.map (fun j => 0 + j * 100) (seq k (n / 100 - k + 1)), Completed).
Proof.
  intros Hsize.
  pose proof (Nat.div_mod_eq n 100) as Hdm.
  pose proof (Nat.mod_upper_bound n 100 ltac:(lia)) as Hmod.
  induction fuel as [|fuel IH]; intros k Hk Hfuel; [lia|].
  cbn [pagination]. rewrite Hsize.
  destruct (decide (k = n / 100)) as [->|Hne].
  - replace (n / 100 - n / 100 + 1) with 1 by lia.
    destruct (Nat.min 100 (n - n / 100 * 100) <? 100) eqn:Hlt; [done|].
    apply Nat.ltb_ge in Hlt. lia.
  - destruct (Nat.min 100 (n - k * 100) <? 100) eqn:Hlt.
    { apply Nat.ltb_lt in Hlt. lia. }
    replace (k * 100 + 100) with (S k * 100) by lia.
    rewrite IH by lia. cbn [fst snd].
    replace (n / 100 - k + 1) with (S (n / 100 - S k + 1)) by lia.
    reflexivity.
Qed.



(** The pages of a playlist of conforming records, as the loop counts
    them. *)
Lemma serves_page_sizes (sv : services) (pid : string) (pl : list raw_track) :
  serves sv pid pl -> Forall Spec.conforms pl ->
  forall offset, page_sizes sv pid offset = Some (Nat.min 100 (length pl - offset)).
Proof.
  intros [_ Hpages] Hpl offset. unfold page_sizes. rewrite Hpages. cbn [reply_size].
  rewrite conforms_passes by by apply Forall_take, Forall_drop.
  by rewrite length_take, length_drop.
Qed.

(** What a playlist of conforming records gives: the requests, and the
    entries of the specification. *)
Lemma fetch_conforming (sv : services) (pid : string) (pl : list raw_track)
    (fuel : nat) (st : state) :
  serves sv pid pl -> Forall Spec.conforms pl -> length pl / 100 < fuel ->
  exists evs : list event,
    get_apple_music_tracks sv fuel pid st
    = (Ret (Some (Spec.usable_entries pl)),
       {| trace := trace st ++ evs; playlist := playlist st |})
    /\ page_requests evs
       = List.map (fun k => PlaylistRelationship pid 100 (k * 100) (Returns (page pl k)))
           (seq 0 (length pl / 100 + 1))
    /\ harmless evs.
Proof.
  intros Hserves Hpl Hfuel. pose proof Hserves as [Hconn Hpages].
  pose proof (Nat.div_mod_eq (length pl) 100) as Hdm.
  pose proof (Nat.mod_upper_bound (length pl) 100 ltac:(lia)) as Hmod.
  destruct (get_apple_music_tracks_spec sv fuel pid st) as (evs & r & Hrun & Hh & Hspec).
  rewrite Hconn in Hspec.
  rewrite (pagination_slices (page_sizes sv pid) (length pl)) with (k := 0) in Hspec;
    [|by apply serves_page_sizes | lia | lia].
  cbn [fst snd] in Hspec. destruct Hspec as [Hreq ->].
  rewrite Nat.sub_0_r in Hreq.
  assert (page_requests evs
          = List.map (fun k => PlaylistRelationship pid 100 (k * 100) (Returns (page pl k)))
              (seq 0 (length pl / 100 + 1))) as Hreq'.
  { rewrite Hreq, map_map. apply map_ext. intros k. unfold page_request, page.
    by rewrite Hpages. }
  assert (records_received evs = pl) as Hrec.
  { rewrite <- records_received_requests, Hreq'. unfold records_received.
    rewrite map_map. cbn [page_records]. unfold page.
    pose proof (concat_slices 100 (length pl / 100 + 1) pl) as Hc.
    rewrite map_map in Hc. cbn [Nat.add] in Hc. rewrite Hc.
    apply take_ge. lia. }
  exists evs. rewrite Hrun, Hrec, (conforms_yields pl Hpl).
  split; [done|]. by split.
Qed.



(** 250 records come in three pages of 100, 100 and 50; 200 records take
    three requests as well, the last page being empty.  The entries
    returned carry the artist and the title of their records. *)
Example fetch_250_and_200 :
  let run := fun n =>
    get_apple_music_tracks
      (Demo.world (Demo.source n) Demo.no_hits Demo.write_ok (Returns "y"))
      5 "src" Demo.start in
  let sizes := fun n =>
    List.map (fun e => (page_offset e, length (page_records e)))
      (page_requests (trace (run n).2)) in
  sizes 250 = [(Some 0, 100); (Some 100, 100); (Some 200, 50)]
  /\ sizes 200 = [(Some 0, 100); (Some 100, 100); (Some 200, 0)]
  /\ (run 3).1 = Ret (Some [Apple.Track "A" "Song 0"; Apple.Track "h" "Song 1";
                            Apple.Track "O" "Song 2"]).
Proof. vm_compute. repeat split; reflexivity. Qed.

(** Records are skipped without a bearing on the page-size check, as long
    as none of them raises: a record that conforms to the API's
    description and lacks a required field yields no track, the tracks
    returned are those the records received yield, and two source services
    whose pages the loop goes through and counts alike get the same page
    requests, the two calls ending the same way. *)
Lemma skipping_keeps_pagination (sv1 sv2 : services) (fuel : nat) (pid : string)
    (st1 st2 : state) :
  apple_music sv1 = apple_music sv2 ->
  (forall offset, page_sizes sv1 pid offset = page_sizes sv2 pid offset) ->
  exists (evs1 evs2 : list event) (r1 r2 : outcome (option (list Apple.track))),
    get_apple_music_tracks sv1 fuel pid st1
    = (r1, {| trace := trace st1 ++ evs1; playlist := playlist st1 |})
    /\ get_apple_music_tracks sv2 fuel pid st2
       = (r2, {| trace := trace st2 ++ evs2; playlist := playlist st2 |})
    /\ (forall track : raw_track,
          Spec.conforms track -> Spec.entry track = None -> usable track = Returns None)
    /\ (forall tracks, r1 = Ret (Some tracks) ->
        tracks = omap yields (records_received evs1))
    /\ offsets_requested evs1 = offsets_requested evs2
    /\ fetch_ending r1 = fetch_ending r2.
Proof.
  intros Hconn Hsizes.
  destruct (get_apple_music_tracks_spec sv1 fuel pid st1) as (evs1 & r1 & Hrun1 & _ & H1).
  destruct (get_apple_music_tracks_spec sv2 fuel pid st2) as (evs2 & r2 & Hrun2 & _ & H2).
  exists evs1, evs2, r1, r2.
  split; [exact Hrun1|]. split; [exact Hrun2|].
  split; [intros track Hc <-; by apply conforms_usable|].
  rewrite <- (offsets_requested_requests evs1), <- (offsets_requested_requests evs2).
  rewrite <- Hconn in H2.
  rewrite <- (pagination_ext _ _ fuel Hsizes 0) in H2.
  destruct (apple_music sv1) as [u|e].
  - destruct H1 as [Hreq1 Hres1], H2 as [Hreq2 Hres2].
    rewrite Hreq1, Hreq2, !offsets_requested_map.
    destruct (pagination (page_sizes sv1 pid) fuel 0).2; subst r1 r2;
      (split; [congruence|]); done.
  - destruct H1 as [-> ->], H2 as [-> ->]. done.
Qed.

(** A first page of 100 raw records of which 14 are skipped is not taken
    for the last page: the second page is requested, and the tracks of
    both are returned. *)
Example skipped_records_example :
  let r := get_apple_music_tracks
             (Demo.world (Demo.damaged 150) Demo.no_hits Demo.write_ok (Returns "y"))
             4 "src" Demo.start in
  offsets_requested (trace r.2) = [0; 100]
  /\ List.map (fun e => length (omap yields (page_records e))) (page_requests (trace r.2))
     = [86; 43]
  /\ (exists tracks, r.1 = Ret (Some tracks) /\ length tracks = 129).
Proof.
  vm_compute. split; [reflexivity|]. split; [reflexivity|].
  eexists. split; reflexivity.
Qed.

(** C5. The script does not skip every record that lacks the required
    fields.  A record whose ["attributes"] are [null] has no attributes
    with an artist and a title, and the specification has no entry for it;
    but the test of line 48 raises on it, the handler of the whole function
    takes the exception, and [get_apple_music_tracks] returns [None]: the
    entries of the records before it are lost, and no further page is
    requested, however many records the page holds. *)
Theorem null_attributes_end_the_fetch (sv : services) (fuel : nat) (pid : string)
    (st : state) (page_of_tracks : list raw_track) (i : nat) (track : raw_track) :
  apple_music sv = Returns tt ->
  playlist_relationship sv pid 0 = Returns page_of_tracks ->
  page_of_tracks !! i = Some track ->
  Forall Spec.conforms (take i page_of_tracks) ->
  track !! "attributes" = Some JNull ->
  Spec.entry track = None
  /\ get_apple_music_tracks sv (S fuel) pid st
     = (Ret None,
        {| trace := trace st
                      ++ [Print "-> Connecting to Apple Music...";
                          AppleMusic (Returns tt);
                          Print "-> Fetching all tracks from Apple Music playlist (this may take a moment for large playlists)...";
                          PlaylistRelationship pid 100 0 (Returns page_of_tracks);
                          Print null_error];
           playlist := playlist st |}).
Proof.
  intros Hconn Hpage Hi Hbefore Hnull.
  split; [unfold Spec.entry; by rewrite Hnull|].
  assert (forall all_tracks,
             process_page page_of_tracks all_tracks
             = Raises "argument of type 'NoneType' is not iterable") as Hraise.
  { rewrite <- (take_drop_middle page_of_tracks i track Hi). clear Hpage Hi.
    induction Hbefore as [|t before Ht _ IH]; intros all_tracks.
    - cbn [app process_page]. unfold usable. by rewrite Hnull.
    - cbn [app process_page]. rewrite (conforms_usable t Ht).
      by destruct (Spec.entry t). }
  unfold get_apple_music_tracks, try_except, bind, print, emit, am_connect.
  rewrite Hconn. cbn [of_reply ret fetch_pages].
  unfold bind, am_playlist_relationship. rewrite Hpage. cbn [of_reply ret].
  rewrite Hraise. cbn [of_reply raise]. unfold ret, log, null_error. cbn.
  f_equal. f_equal. trace_eq.
Qed.

Lemma null_attributes_end_the_fetch_witness :
  Spec.entry Demo.unavailable = None
  /\ get_apple_music_tracks
       (Demo.world (Demo.spoiled 150) Demo.no_hits Demo.write_ok (Returns "y"))
       4 "src" Demo.start
     = (Ret None,
        {| trace := trace Demo.start
                      ++ [Print "-> Connecting to Apple Music...";
                          AppleMusic (Returns tt);
                          Print "-> Fetching all tracks from Apple Music playlist (this may take a moment for large playlists)...";
                          PlaylistRelationship "src" 100 0
                            (Returns (take 100 (drop 0 (Demo.spoiled 150))));
                          Print null_error];
           playlist := playlist Demo.start |}).
Proof.
  apply (null_attributes_end_the_fetch
           (Demo.world (Demo.spoiled 150) Demo.no_hits Demo.write_ok (Returns "y"))
           3 "src" Demo.start (take 100 (drop 0 (Demo.spoiled 150))) 1 Demo.unavailable).
  - reflexivity.
  - reflexivity.
  - reflexivity.
  - apply (bool_decide_unpack _). vm_compute. exact I.
  - reflexivity.
Defined.

(** The playlist of 150 records with one [null] among the first hundred:
    the specification has 149 entries for it, to be fetched in two pages;
    the script asks for the first page and returns [None].  Had the record
    no attributes at all, the script would skip it and return the 149. *)
Example spoiled_playlist_example :
  let run := fun pl =>
    get_apple_music_tracks (Demo.world pl Demo.no_hits Demo.write_ok (Returns "y"))
      4 "src" Demo.start in
  let skippable := Demo.one_odd ∅ 150 in
  length (Spec.usable_entries (Demo.spoiled 150)) = 149
  /\ (run (Demo.spoiled 150)).1 = Ret None
  /\ offsets_requested (trace (run (Demo.spoiled 150)).2) = [0]
  /\ (run skippable).1 = Ret (Some (Spec.usable_entries (Demo.spoiled 150)))
  /\ offsets_requested (trace (run skippable).2) = [0; 100].
Proof. vm_compute. repeat split; reflexivity. Qed.

(** ** The orchestrator: claims about [main] *)

Section Quiet.
Context (sv : services).

Lemma quiet_ret {A : Type} (a : A) : quiet (ret a).
Proof.
  intros st. exists [], (Ret a). unfold ret. rewrite app_nil_r. destruct st.
  split; [done | apply harmless_nil].
Qed.

Lemma quiet_emit (e : event) : is_write e = false -> is_input e = false -> quiet (emit e).
Proof.
  intros H1 H2 st. exists [e], (Ret tt). split; [done|].
  by apply harmless_cons; [..|apply harmless_nil].
Qed.

Lemma quiet_print (line : string) : quiet (print line).
Proof. by apply quiet_emit. Qed.

Lemma quiet_bind {A B : Type} (m : M A) (k : A -> M B) :
  quiet m -> (forall a, quiet (k a)) -> quiet (bind m k).
Proof.
  intros Hm Hk st. unfold bind.
  destruct (Hm st) as (evs & r & -> & Hh).
  destruct r as [a|e|].
  - destruct (Hk a {| trace := trace st ++ evs; playlist := playlist st |})
      as (evs' & r' & -> & Hh').
    exists (evs ++ evs'), r'. cbn. rewrite app_assoc.
    split; [done | by apply harmless_app].
  - by exists evs, (Exc e).
  - by exists evs, OutOfFuel.
Qed.

Lemma quiet_try_except {A : Type} (body : M A) (handler : exn -> M A) :
  quiet body -> (forall e, quiet (handler e)) -> quiet (try_except body handler).
Proof.
  intros Hm Hk st. unfold try_except.
  destruct (Hm st) as (evs & r & -> & Hh).
  destruct r as [a|e|].
  - by exists evs, (Ret a).
  - destruct (Hk e {| trace := trace st ++ evs; playlist := playlist st |})
      as (evs' & r' & -> & Hh').
    exists (evs ++ evs'), r'. cbn. rewrite app_assoc.
    split; [done | by apply harmless_app].
  - by exists evs, OutOfFuel.
Qed.

Lemma quiet_for_each {A : Type} (l : list A) (body : A -> M unit) :
  (forall x, quiet (body x)) -> quiet (for_each l body).
Proof.
  intros Hbody. induction l as [|x l IH]; simpl.
  - apply quiet_ret.
  - apply quiet_bind; [apply Hbody | intros _; exact IH].
Qed.

Lemma quiet_sp_me : quiet (sp_me sv).
Proof.
  intros st. unfold sp_me.
  exists [SpotifyMe (spotify_me sv)].
  destruct (spotify_me sv) as [u|e]; eexists; (split; [reflexivity|]);
    by apply harmless_cons; [..|apply harmless_nil].
Qed.

Lemma quiet_get_apple_music_tracks (fuel : nat) (pid : string) :
  quiet (get_apple_music_tracks sv fuel pid).
Proof.
  intros st.
  destruct (get_apple_music_tracks_spec sv fuel pid st) as (evs & r & Hrun & Hh & _).
  by exists evs, r.
Qed.

Lemma lookups_harmless (tracks : list Apple.track) (segs : list (list event))
    (outs : list MatchResult) :
  Forall3 lookup tracks segs outs -> harmless (concat segs).
Proof.
  induction 1 as [|track seg out tracks segs outs (r & _ & _ & Hw & Hi) _ IH]; simpl.
  - apply harmless_nil.
  - by apply harmless_app.
Qed.

Lemma quiet_find_spotify_tracks (apple_tracks : list Apple.track) :
  quiet (find_spotify_tracks sv apple_tracks).
Proof.
  unfold find_spotify_tracks.
  apply quiet_bind; [apply quiet_print|]. intros _.
  apply quiet_bind; [|intros r; apply quiet_bind; [apply quiet_print | intros _; apply quiet_ret]].
  intros st.
  destruct (search_all_lookup sv (length apple_tracks) apple_tracks 0 [] [] st)
    as (outs & segs & -> & HF).
  eexists. eexists. split; [reflexivity|]. by eapply lookups_harmless.
Qed.

Lemma gated_quiet (m : M unit) : quiet m -> gated sv m.
Proof.
  intros Hm st. destruct (Hm st) as (evs & r & -> & Hh).
  exists evs. split; [done|]. left. by exists r.
Qed.

Lemma gated_bind {A : Type} (m : M A) (k : A -> M unit) :
  quiet m -> (forall a, gated sv (k a)) -> gated sv (bind m k).
Proof.
  intros Hm Hk st. unfold bind.
  destruct (Hm st) as (evs & r & -> & Hh).
  destruct r as [a|e|].
  - destruct (Hk a {| trace := trace st ++ evs; playlist := playlist st |})
      as (pre & Hpre & Hcase).
    exists (evs ++ pre). split; [by apply harmless_app|].
    cbn in Hcase. rewrite <- app_assoc in Hcase. exact Hcase.
  - exists evs. split; [done|]. left. by exists (Exc e).
  - exists evs. split; [done|]. left. by exists OutOfFuel.
Qed.

Lemma gated_confirm (tracks : list Spotify.track) :
  tracks <> [] -> gated sv (confirm_and_update sv tracks).
Proof.
  intros Hne st. exists []. split; [apply harmless_nil|]. right.
  exists tracks. split; [done|]. rewrite app_nil_r. by destruct st.
Qed.

(** [main] is harmless up to the prompt. *)
Lemma main_gated (fuel : nat) : gated sv (main sv fuel).
Proof.
  unfold main.
  apply gated_bind.
  { apply quiet_try_except.
    - apply quiet_bind; [apply quiet_sp_me | intros _; apply quiet_ret].
    - intros e. apply quiet_bind; [apply quiet_print | intros _; apply quiet_ret]. }
  intros [|]; cbn [negb]; [|apply gated_quiet, quiet_ret].
  apply gated_bind; [apply quiet_get_apple_music_tracks|].
  intros [[|t apple_tracks]|]; try apply gated_quiet, quiet_ret.
  apply gated_bind; [apply quiet_find_spotify_tracks|].
  intros [spotify_tracks not_found_tracks]. cbn [fst snd].
  do 3 (apply gated_bind; [apply quiet_print|]; intros _).
  apply gated_bind.
  { destruct not_found_tracks; [apply quiet_ret|].
    apply quiet_bind; [apply quiet_print|]. intros _.
    apply quiet_for_each. intros x. apply quiet_print. }
  intros _. apply gated_bind.
  { destruct spotify_tracks; [apply quiet_ret|].
    apply quiet_bind; [apply quiet_print|]. intros _.
    apply quiet_for_each. intros x. apply quiet_print. }
  intros _. apply gated_bind; [apply quiet_print|]. intros _.
  destruct spotify_tracks as [|t0 spotify_tracks].
  - apply gated_quiet, quiet_print.
  - by apply (gated_confirm (t0 :: spotify_tracks)).
Qed.

End Quiet.

Section Extends.
Context (sv : services).

Lemma extends_quiet {A : Type} (m : M A) : quiet m -> extends m.
Proof.
  intros Hm st. destruct (Hm st) as (evs & r & -> & _ & Hi). by eexists _, _, _.
Qed.

Lemma extends_bind {A B : Type} (m : M A) (k : A -> M B) :
  extends m -> (forall a, extends (k a)) -> extends (bind m k).
Proof.
  intros Hm Hk st. unfold bind. destruct (Hm st) as (evs & r & p & -> & Hi).
  destruct r as [a|e|]; [|by eexists _, _, _..].
  destruct (Hk a {| trace := trace st ++ evs; playlist := p |})
    as (evs' & r' & p' & -> & Hi').
  exists (evs ++ evs'), r', p'. cbn. rewrite app_assoc. split; [done|].
  by rewrite List.filter_app, Hi, Hi'.
Qed.

Lemma extends_try_except {A : Type} (body : M A) (handler : exn -> M A) :
  extends body -> (forall e, extends (handler e)) -> extends (try_except body handler).
Proof.
  intros Hm Hk st. unfold try_except. destruct (Hm st) as (evs & r & p & -> & Hi).
  destruct r as [a|e|]; [by eexists _, _, _| |by eexists _, _, _].
  destruct (Hk e {| trace := trace st ++ evs; playlist := p |})
    as (evs' & r' & p' & -> & Hi').
  exists (evs ++ evs'), r', p'. cbn. rewrite app_assoc. split; [done|].
  by rewrite List.filter_app, Hi, Hi'.
Qed.

Lemma extends_for_each {A : Type} (l : list A) (body : A -> M unit) :
  (forall x, extends (body x)) -> extends (for_each l body).
Proof.
  intros Hbody. induction l as [|x l IH]; simpl.
  - apply extends_quiet, quiet_ret.
  - apply extends_bind; [apply Hbody | intros _; exact IH].
Qed.

Lemma extends_replace_items (pid : string) (items : list string) :
  extends (sp_playlist_replace_items sv pid items).
Proof.
  intros st. unfold sp_playlist_replace_items.
  destruct (playlist_write sv _) as [u|e]; by eexists _, _, _.
Qed.

Lemma extends_add_items (pid : string) (items : list string) :
  extends (sp_playlist_add_items sv pid items).
Proof.
  intros st. unfold sp_playlist_add_items.
  destruct (playlist_write sv _) as [u|e]; by eexists _, _, _.
Qed.

Lemma extends_update (pid : string) (tracks : list Spotify.track) :
  extends (update_spotify_playlist sv pid tracks).
Proof.
  unfold update_spotify_playlist. destruct tracks as [|t tracks].
  - apply extends_quiet, quiet_print.
  - apply extends_bind; [apply extends_quiet, quiet_print|]. intros _.
    apply extends_bind; [apply extends_quiet, quiet_print|]. intros _.
    apply extends_try_except.
    + apply extends_bind; [apply extends_replace_items|]. intros _.
      apply extends_bind; [|intros _; apply extends_quiet, quiet_print].
      apply extends_for_each. intros i. apply extends_add_items.
    + intros e. apply extends_quiet, quiet_print.
Qed.

End Extends.

Lemma lower_char_y (c : ascii) :
  Str.lower_char c = "y"%char -> c = "y"%char \/ c = "Y"%char.
Proof.
  destruct c as [[] [] [] [] [] [] [] []]; vm_compute; intros H;
    first [discriminate H | by left | by right].
Qed.

Lemma lower_is_y (a : string) : Str.lower a = "y" <-> a = "y" \/ a = "Y".
Proof.
  split.
  - destruct a as [|c [|c' a]]; simpl; intros H; try discriminate H.
    injection H as H. destruct (lower_char_y c H) as [-> | ->]; auto.
  - intros [-> | ->]; reflexivity.
Qed.

Lemma no_input_event (evs : list event) (prompt : string) (r : reply string) :
  List.filter is_input evs = [] -> Input prompt r ∉ evs.
Proof.
  intros Hi Hin%list_elem_of_In.
  assert (In (Input prompt r) (List.filter is_input evs)) as H.
  { by apply List.filter_In. }
  by rewrite Hi in H.
Qed.

(** C1.  In every run of [main], a destination-playlist write is made only
    after an answer whose lower-case form is ["y"] has been read at the
    confirmation prompt; when the console gives anything else (or fails),
    the run contains no write call and leaves the playlist as it was, and
    if that answer was read at the prompt the run ends there, after the
    line that says the sync was cancelled. *)
Theorem writes_need_confirmation (sv : services) (fuel : nat) (st : state) :
  exists (evs : list event) (r : outcome unit) (final : list string),
    main sv fuel st = (r, {| trace := trace st ++ evs; playlist := final |})
    /\ (writes evs <> [] ->
        exists (pre : list event) (a : string) (post : list event),
          evs = pre ++ Input confirmation_prompt (Returns a) :: post
          /\ Str.lower a = "y" /\ writes pre = [])
    /\ ((forall a, console_input sv = Returns a -> Str.lower a <> "y") ->
        writes evs = [] /\ final = playlist st)
    /\ (forall a, Str.lower a <> "y" ->
        Input confirmation_prompt (Returns a) ∈ evs ->
        r = Ret tt /\ last evs = Some (Print cancelled_line)).
Proof.
  destruct (main_gated sv fuel st)
    as (pre & Hpre & [[r Hrun] | (tracks & Hne & Hrun)]).
  { exists pre, r, (playlist st). destruct Hpre as [Hw Hi].
    do 3 (split; [done|]). intros a _ Hin.
    by apply (no_input_event pre) in Hin. }
  pose proof Hpre as [Hw Hi].
  rewrite Hrun. unfold confirm_and_update, bind, input. cbn [trace playlist].
  destruct (console_input sv) as [a|e] eqn:Hin; cbn [of_reply ret raise].
  - destruct (decide (Str.lower a = "y")) as [Hy|Hy].
    + destruct (extends_update sv (SPOTIFY_PLAYLIST_ID sv) tracks
                  (log (Input confirmation_prompt (Returns a))
                     {| trace := trace st ++ pre; playlist := playlist st |}))
        as (post & r & p & -> & Hpost).
      exists (pre ++ Input confirmation_prompt (Returns a) :: post), r, p.
      split; [cbn; f_equal; f_equal; trace_eq|].
      split; [intros _; by exists pre, a, post|].
      split; [intros Hno; by destruct (Hno a)|].
      intros a' Ha' Hin'. exfalso.
      apply elem_of_app in Hin' as [Hin' | Hin'].
      { by apply (no_input_event pre) in Hin'. }
      apply elem_of_cons in Hin' as [Heq | Hin'].
      { injection Heq as ->. done. }
      by apply (no_input_event post) in Hin'.
    + exists (pre ++ [Input confirmation_prompt (Returns a); Print cancelled_line]),
        (Ret tt), (playlist st).
      split; [unfold print, emit, log; cbn; f_equal; f_equal; trace_eq|].
      rewrite writes_app, Hw. do 2 (split; [done|]).
      intros _ _ _. split; [done|].
      change [Input confirmation_prompt (Returns a); Print cancelled_line]
        with ([Input confirmation_prompt (Returns a)] ++ [Print cancelled_line]).
      rewrite app_assoc. apply last_snoc.
  - exists (pre ++ [Input confirmation_prompt (Raises e)]), (Exc e), (playlist st).
    split; [unfold log; cbn; f_equal; f_equal; trace_eq|].
    rewrite writes_app, Hw. do 2 (split; [done|]).
    intros a Ha Hin'. exfalso.
    apply elem_of_app in Hin' as [Hin' | Hin'].
    { by apply (no_input_event pre) in Hin'. }
    apply list_elem_of_singleton in Hin'. discriminate.
Qed.

(** In a world where every search has a hit, the answer ["Y"] lets the
    update through; ["yes"], [" y"], ["n"] and the empty line cancel it and
    leave the playlist as it was. *)
Example main_confirmed :
  let r := main (Demo.world (Demo.source 2) Demo.any_hit Demo.write_ok (Returns "Y"))
             2 Demo.start in
  r.1 = Ret tt
  /\ writes (trace r.2)
     = [replaced "dest";
        added "dest" ["id of track:Song 0 artist:A"; "id of track:Song 1 artist:h"]]
  /\ playlist r.2 = ["id of track:Song 0 artist:A"; "id of track:Song 1 artist:h"].
Proof. vm_compute. repeat split; reflexivity. Qed.

Example main_declined :
  Forall (fun answer =>
            let r := main (Demo.world (Demo.source 2) Demo.any_hit Demo.write_ok
                             (Returns answer)) 2 Demo.start in
            r.1 = Ret tt
            /\ writes (trace r.2) = []
            /\ last (trace r.2) = Some (Print cancelled_line)
            /\ playlist r.2 = playlist Demo.start)
    ["yes"; " y"; "y "; "n"; EmptyString].
Proof. repeat constructor; vm_compute; reflexivity. Qed.

(** * Further properties of the script *)

(** ** [get_apple_music_tracks] *)

(** X1. When the connection to the source service cannot be set up (the
    key file cannot be read, or the client cannot be built),
    [get_apple_music_tracks] prints the error and returns [None] without
    requesting any page. *)
Theorem fetch_connection_failure (sv : services) (fuel : nat) (pid : string) (st : state)
    (e : exn) :
  apple_music sv = Raises e ->
  get_apple_music_tracks sv fuel pid st
  = (Ret None,
     {| trace := trace st
                   ++ [Print "-> Connecting to Apple Music...";
                       AppleMusic (Raises e);
                       Print ("Error connecting to Apple Music or fetching playlist: " +:+ e)];
        playlist := playlist st |}).
Proof.
  intros He. unfold get_apple_music_tracks, bind, print, emit, try_except, am_connect.
  rewrite He. unfold log. cbn. f_equal. f_equal. trace_eq.
Qed.

Lemma fetch_connection_failure_witness :
  get_apple_music_tracks Demo.offline 0 "src" Demo.start
  = (Ret None,
     {| trace := trace Demo.start
                   ++ [Print "-> Connecting to Apple Music...";
                       AppleMusic (Raises "no key file");
                       Print ("Error connecting to Apple Music or fetching playlist: "
                              +:+ "no key file")];
        playlist := playlist Demo.start |}).
Proof. apply (fetch_connection_failure Demo.offline 0 "src" Demo.start). reflexivity. Defined.

Lemma pagination_failed (size : nat -> option nat) (fuel : nat) :
  forall offset o : nat,
    o ∈ (pagination size fuel offset).1 -> size o = None ->
    (pagination size fuel offset).2 = Failed.
Proof.
  induction fuel as [|fuel IH]; intros offset o Hin Hnone; simpl in *.
  - by apply elem_of_nil in Hin.
  - destruct (size offset) as [n|] eqn:E; [|done].
    destruct (n <? 100); simpl in *.
    + apply list_elem_of_singleton in Hin as ->. congruence.
    + apply elem_of_cons in Hin as [->|Hin]; [congruence|]. by eapply IH.
Qed.

Lemma pagination_full (size : nat -> option nat) :
  (forall offset, exists n, size offset = Some n /\ 100 <= n) ->
  forall fuel offset : nat,
    pagination size fuel offset
    = (List.map (fun k => offset + k * 100) (seq 0 fuel), Unfinished).
Proof.
  intros Hfull. induction fuel as [|fuel IH]; intros offset; [done|].
  cbn [pagination]. destruct (Hfull offset) as (n & -> & Hn).
  destruct (n <? 100) eqn:Hlt; [apply Nat.ltb_lt in Hlt; lia|].
  rewrite IH. cbn [fst snd seq List.map]. f_equal. f_equal; [lia|].
  rewrite <- seq_shift, map_map. apply map_ext. intros k. lia.
Qed.

(** *** Confined computations *)

Section Confined.
Context (allowed : event -> bool).

Lemma confined_ret {A : Type} (post : A -> Prop) (a : A) :
  post a -> confined allowed post (ret a).
Proof.
  intros Hp st. exists [], (Ret a). unfold ret. rewrite app_nil_r. destruct st.
  split; [done|]. split; [done|]. by intros a' [= <-].
Qed.

Lemma confined_raise {A : Type} (post : A -> Prop) (e : exn) :
  confined allowed post (raise e).
Proof.
  intros st. exists [], (Exc e). unfold raise. rewrite app_nil_r. destruct st.
  by repeat split.
Qed.

Lemma confined_emit (e : event) :
  allowed e = true -> confined allowed (fun _ => True) (emit e).
Proof.
  intros He st. exists [e], (Ret tt). split; [done|]. cbn. by rewrite He.
Qed.

Lemma confined_bind {A B : Type} (P : A -> Prop) (Q : B -> Prop) (m : M A) (k : A -> M B) :
  confined allowed P m -> (forall a, P a -> confined allowed Q (k a)) ->
  confined allowed Q (bind m k).
Proof.
  intros Hm Hk st. unfold bind. destruct (Hm st) as (evs & r & -> & Ha & Hp).
  destruct r as [a|e|]; [|by exists evs, (Exc e) | by exists evs, OutOfFuel].
  destruct (Hk a (Hp a eq_refl) {| trace := trace st ++ evs; playlist := playlist st |})
    as (evs' & r' & -> & Ha' & Hp').
  exists (evs ++ evs'), r'. cbn. rewrite app_assoc. split; [done|].
  split; [|done]. rewrite forallb_app. by rewrite Ha, Ha'.
Qed.

Lemma confined_try_except {A : Type} (P : A -> Prop) (body : M A) (handler : exn -> M A) :
  confined allowed P body -> (forall e, confined allowed P (handler e)) ->
  confined allowed P (try_except body handler).
Proof.
  intros Hm Hk st. unfold try_except. destruct (Hm st) as (evs & r & -> & Ha & Hp).
  destruct r as [a|e|]; [by exists evs, (Ret a) | | by exists evs, OutOfFuel].
  destruct (Hk e {| trace := trace st ++ evs; playlist := playlist st |})
    as (evs' & r' & -> & Ha' & Hp').
  exists (evs ++ evs'), r'. cbn. rewrite app_assoc. split; [done|].
  split; [|done]. rewrite forallb_app. by rewrite Ha, Ha'.
Qed.

Lemma confined_for_each {A : Type} (l : list A) (body : A -> M unit) :
  (forall x, confined allowed (fun _ => True) (body x)) ->
  confined allowed (fun _ => True) (for_each l body).
Proof.
  intros Hbody. induction l as [|x l IH]; simpl.
  - by apply confined_ret.
  - eapply confined_bind; [apply Hbody | intros _ _; exact IH].
Qed.

Lemma confined_weaken {A : Type} (P Q : A -> Prop) (m : M A) :
  (forall a, P a -> Q a) -> confined allowed P m -> confined allowed Q m.
Proof.
  intros HPQ Hm st. destruct (Hm st) as (evs & r & Hrun & Ha & Hp).
  exists evs, r. split; [done|]. split; [done|]. intros a Hr. by apply HPQ, Hp.
Qed.

End Confined.

Lemma no_io_no_search_spec (evs : list event) :
  forallb no_io_no_search evs = true -> harmless evs /\ searches evs = [].
Proof.
  unfold harmless, writes, searches.
  induction evs as [|e evs IH]; [done|]. cbn [forallb].
  intros [He Hevs]%andb_prop. destruct (IH Hevs) as [[H1 H2] H3].
  destruct e; cbn in *; by rewrite ?H1, ?H2, ?H3.
Qed.

Lemma no_io_spec (evs : list event) : forallb no_io evs = true -> harmless evs.
Proof.
  unfold harmless, writes.
  induction evs as [|e evs IH]; [done|]. cbn [forallb].
  intros [He Hevs]%andb_prop. destruct (IH Hevs) as [H1 H2].
  destruct e; cbn in *; by rewrite ?H1, ?H2.
Qed.

(** Two descriptions of one run agree on the events it added. *)
Lemma same_run {A : Type} (m : M A) (st : state) (r r' : outcome A) (evs evs' : list event)
    (p p' : list string) :
  m st = (r, {| trace := trace st ++ evs; playlist := p |}) ->
  m st = (r', {| trace := trace st ++ evs'; playlist := p' |}) ->
  r = r' /\ evs = evs' /\ p = p'.
Proof.
  intros -> [= -> Ht ->]. by apply app_inv_head in Ht.
Qed.

Section FetcherMore.
Context (sv : services) (pid : string).

Lemma confined_page_request (offset : nat) :
  confined no_io_no_search
    (fun page_of_tracks => playlist_relationship sv pid offset = Returns page_of_tracks)
    (am_playlist_relationship sv pid 100 offset).
Proof.
  intros st. unfold am_playlist_relationship.
  exists [PlaylistRelationship pid 100 offset (playlist_relationship sv pid offset)].
  destruct (playlist_relationship sv pid offset) as [page_of_tracks|e]; eexists;
    (split; [reflexivity|]); split; try done.
  by intros a [= <-].
Qed.

Lemma confined_fetch_pages (fuel : nat) :
  forall (all_tracks : list Apple.track) (offset : nat),
    confined no_io_no_search
      (fun tracks => nothing_usable sv pid -> tracks = all_tracks)
      (fetch_pages sv fuel pid all_tracks offset).
Proof.
  induction fuel as [|fuel IH]; intros all_tracks offset.
  - intros st. exists [], OutOfFuel. simpl. rewrite app_nil_r. destruct st. by repeat split.
  - cbn [fetch_pages].
    eapply confined_bind; [apply confined_page_request|].
    intros page_of_tracks Hpage. cbn beta.
    eapply confined_bind
      with (P := fun tracks => process_page page_of_tracks all_tracks = Returns tracks).
    { destruct (process_page page_of_tracks all_tracks) as [tracks|e];
        [by apply confined_ret | by apply confined_raise]. }
    intros tracks Hprocess. cbn beta.
    assert (nothing_usable sv pid -> tracks = all_tracks) as Hsame.
    { intros Hn. rewrite (process_page_returns _ _ _ Hprocess), (Hn _ _ Hpage).
      apply app_nil_r. }
    destruct (length page_of_tracks <? 100).
    + eapply confined_bind; [by apply confined_emit|]. intros _ _.
      by apply confined_ret.
    + eapply confined_bind; [by apply confined_emit|]. intros _ _.
      eapply confined_bind; [by apply confined_emit|]. intros _ _.
      eapply confined_weaken; [|apply IH]. cbn beta. intros tracks' Ht Hn.
      rewrite (Ht Hn). by apply Hsame.
Qed.

Lemma confined_get_apple_music_tracks (fuel : nat) :
  confined no_io_no_search
    (fun apple_tracks => nothing_usable sv pid -> apple_tracks = None \/ apple_tracks = Some [])
    (get_apple_music_tracks sv fuel pid).
Proof.
  unfold get_apple_music_tracks.
  eapply confined_bind; [by apply confined_emit|]. intros _ _.
  apply confined_try_except.
  - eapply confined_bind with (P := fun _ => True).
    { intros st. unfold am_connect. exists [AppleMusic (apple_music sv)].
      destruct (apple_music sv); eexists; (split; [reflexivity|]); by split. }
    intros _ _. eapply confined_bind; [by apply confined_emit|]. intros _ _.
    eapply confined_bind; [apply confined_fetch_pages|]. intros tracks Ht. cbn beta.
    eapply confined_bind; [by apply confined_emit|]. intros _ _.
    apply confined_ret. intros Hn. right. by rewrite (Ht Hn).
  - intros e. eapply confined_bind; [by apply confined_emit|]. intros _ _.
    apply confined_ret. by left.
Qed.

End FetcherMore.

(** X2. [get_apple_music_tracks] stays on the source side and returns
    all or nothing: whatever the services answer, it makes no search, no
    playlist write and no console read, and leaves the playlist alone; and
    once a page request that it made has raised, or a record of a page that
    it received has made lines 48-51 raise, it does not return a list of
    tracks, however many pages it had already received. *)
Theorem fetch_all_or_nothing (sv : services) (fuel : nat) (pid : string) (st : state) :
  exists (evs : list event) (r : outcome (option (list Apple.track))),
    get_apple_music_tracks sv fuel pid st
    = (r, {| trace := trace st ++ evs; playlist := playlist st |})
    /\ writes evs = [] /\ List.filter is_input evs = [] /\ searches evs = []
    /\ (forall offset e,
         offset ∈ offsets_requested evs ->
         playlist_relationship sv pid offset = Raises e ->
         forall tracks, r <> Ret (Some tracks))
    /\ (forall offset page_of_tracks track e,
         offset ∈ offsets_requested evs ->
         playlist_relationship sv pid offset = Returns page_of_tracks ->
         track ∈ page_of_tracks -> usable track = Raises e ->
         forall tracks, r <> Ret (Some tracks)).
Proof.
  destruct (get_apple_music_tracks_spec sv fuel pid st) as (evs & r & Hrun & _ & Hspec).
  destruct (confined_get_apple_music_tracks sv pid fuel st) as (evs' & r' & Hrun' & Hc & _).
  destruct (same_run _ _ _ _ _ _ _ _ Hrun Hrun') as (<- & <- & _).
  apply no_io_no_search_spec in Hc as [[Hw Hi] Hs].
  exists evs, r. split; [exact Hrun|].
  rewrite <- (offsets_requested_requests evs).
  do 3 (split; [done|]).
  assert (forall offset, offset ∈ offsets_requested (page_requests evs) ->
                         page_sizes sv pid offset = None ->
                         forall tracks, r <> Ret (Some tracks)) as Hnone.
  { intros offset Hin Hsize tracks.
    destruct (apple_music sv) as [u|e0].
    - destruct Hspec as [Hreq Hres]. rewrite Hreq, offsets_requested_map in Hin.
      rewrite (pagination_failed _ fuel 0 offset Hin Hsize) in Hres. by rewrite Hres.
    - by destruct Hspec as [_ ->]. }
  split.
  - intros offset e Hin He. apply (Hnone offset Hin). unfold page_sizes. by rewrite He.
  - intros offset page_of_tracks track e Hin Hpage Ht He. apply (Hnone offset Hin).
    unfold page_sizes. rewrite Hpage. cbn [reply_size].
    by rewrite (raising_record_fails_page _ _ _ Ht He).
Qed.

(** A request that raises on the third page: the 200 records of the first
    two pages are dropped and [None] is returned. *)
Example fetch_failure_example :
  let sv := {| SPOTIFY_PLAYLIST_ID := "dest"; APPLE_PLAYLIST_ID := "src";
               spotify_me := Returns tt; apple_music := Returns tt;
               playlist_relationship := fun _ offset =>
                 if decide (offset = 200) then Raises "HTTP 500"
                 else Returns (take 100 (drop offset (Demo.source 250)));
               search := Demo.no_hits; playlist_write := Demo.write_ok;
               console_input := Returns "y" |} in
  let r := get_apple_music_tracks sv 5 "src" Demo.start in
  r.1 = Ret None
  /\ offsets_requested (trace r.2) = [0; 100; 200]
  /\ last (trace r.2)
     = Some (Print "Error connecting to Apple Music or fetching playlist: HTTP 500").
Proof. vm_compute. repeat split; reflexivity. Qed.

(** X3. The loop of [get_apple_music_tracks] has no exit but a page with
    fewer than 100 records (or an exception): against a service that
    answers every request with 100 records or more, it goes on requesting
    page after page -- with fuel for [fuel] pages it requests the offsets
    0, 100, ..., 100 * (fuel - 1) and has not returned. *)
Theorem fetch_needs_a_short_page (sv : services) (fuel : nat) (pid : string) (st : state) :
  apple_music sv = Returns tt ->
  (forall offset, exists n, page_sizes sv pid offset = Some n /\ 100 <= n) ->
  exists evs : list event,
    get_apple_music_tracks sv fuel pid st
    = (OutOfFuel, {| trace := trace st ++ evs; playlist := playlist st |})
    /\ offsets_requested evs = List.map (fun k => k * 100) (seq 0 fuel).
Proof.
  intros Hconn Hfull.
  destruct (get_apple_music_tracks_spec sv fuel pid st) as (evs & r & Hrun & _ & Hspec).
  rewrite Hconn, (pagination_full _ Hfull) in Hspec. cbn [fst snd] in Hspec.
  destruct Hspec as [Hreq ->]. exists evs. split; [exact Hrun|].
  by rewrite <- offsets_requested_requests, Hreq, offsets_requested_map.
Qed.

Lemma fetch_needs_a_short_page_witness :
  exists evs : list event,
    get_apple_music_tracks Demo.endless 7 "src" Demo.start
    = (OutOfFuel, {| trace := trace Demo.start ++ evs; playlist := playlist Demo.start |})
    /\ offsets_requested evs = List.map (fun k => k * 100) (seq 0 7).
Proof.
  apply (fetch_needs_a_short_page Demo.endless 7 "src" Demo.start).
  - reflexivity.
  - intros offset. exists 100. split; [reflexivity | lia].
Defined.

Lemma paging_app (a b : list event) : paging (a ++ b) = paging a ++ paging b.
Proof. apply List.filter_app. Qed.

Lemma fetch_pages_paced (sv : services) (pid : string) (fuel : nat) :
  forall (all_tracks : list Apple.track) (offset : nat) (st : state),
  exists (evs : list event) (r : outcome (list Apple.track)),
    fetch_pages sv fuel pid all_tracks offset st
    = (r, {| trace := trace st ++ evs; playlist := playlist st |})
    /\ (r <> OutOfFuel ->
        page_requests evs <> [] /\ paging evs = paced 200 (page_requests evs))
    /\ (r = OutOfFuel ->
        paging evs = concat (List.map (fun c => [c; Sleep 200]) (page_requests evs))).
Proof.
  induction fuel as [|fuel IH]; intros all_tracks offset st.
  - exists [], OutOfFuel. simpl. rewrite app_nil_r. destruct st. by repeat split.
  - cbn [fetch_pages]. unfold bind at 1, am_playlist_relationship.
    fold (page_request sv pid offset).
    destruct (playlist_relationship sv pid offset) as [page_of_tracks|e] eqn:E.
    + cbn [of_reply ret]. unfold bind at 1.
      destruct (process_page page_of_tracks all_tracks) as [tracks|e]; cbn [of_reply ret raise];
        [|exists [page_request sv pid offset], (Exc e); unfold log; cbn; by repeat split].
      destruct (length page_of_tracks <? 100) eqn:Hlt.
      * exists [page_request sv pid offset; Print "  > Reached the end of the playlist."].
        exists (Ret tracks).
        unfold bind, print, emit, ret, log. cbn.
        split; [f_equal; f_equal; trace_eq|]. by split.
      * unfold bind at 1 2, print, sleep, emit.
        match goal with
        | |- context [fetch_pages sv fuel pid ?a ?o ?s] =>
            destruct (IH a o s) as (evs & r & -> & Hret & Hout)
        end.
        exists ([page_request sv pid offset;
                 Print ("  > Fetched " +:+ Str.of_nat (length tracks)
                        +:+ " tracks so far...");
                 Sleep 200] ++ evs), r.
        split.
        { unfold log. cbn. destruct r; (f_equal; f_equal; trace_eq). }
        rewrite paging_app, page_requests_app.
        change (paging [page_request sv pid offset; _; Sleep 200])
          with [page_request sv pid offset; Sleep 200].
        change (page_requests [page_request sv pid offset; _; Sleep 200])
          with [page_request sv pid offset].
        split.
        -- intros Hr. destruct (Hret Hr) as [Hne ->]. split; [done|].
           cbn. by destruct (page_requests evs).
        -- intros Hr. by rewrite (Hout Hr).
    + exists [page_request sv pid offset], (Exc e). cbn. unfold raise, log. cbn.
      by repeat split.
Qed.

(** X4. In a call of [get_apple_music_tracks] that returns, there is a
    pause of 200 ms after every page request but the last, and nowhere
    else: the page requests and the pauses alternate. *)
Theorem fetch_pauses_between_pages (sv : services) (fuel : nat) (pid : string) (st : state) :
  exists (evs : list event) (r : outcome (option (list Apple.track))),
    get_apple_music_tracks sv fuel pid st
    = (r, {| trace := trace st ++ evs; playlist := playlist st |})
    /\ (r <> OutOfFuel -> paging evs = paced 200 (page_requests evs)).
Proof.
  unfold get_apple_music_tracks.
  unfold bind at 1, print at 1, emit, try_except.
  unfold bind at 1, am_connect.
  destruct (apple_music sv) as [u|e] eqn:Hc; cbn [of_reply ret raise].
  - unfold bind at 1, print at 1, emit. unfold bind at 1.
    match goal with
    | |- context [fetch_pages sv fuel pid ?a ?o ?s] =>
        destruct (fetch_pages_paced sv pid fuel a o s) as (evs & r & -> & Hret & _)
    end.
    destruct r as [tracks|e|].
    + eexists. eexists. split.
      { unfold print, emit, ret, log. cbn. f_equal. f_equal. trace_eq. }
      intros _. destruct Hret as [_ Hp]; [done|].
      cbn. rewrite paging_app, page_requests_app, Hp. cbn. by rewrite !app_nil_r.
    + eexists. eexists. split.
      { unfold print, emit, ret, log. cbn. f_equal. f_equal. trace_eq. }
      intros _. destruct Hret as [_ Hp]; [done|].
      cbn. rewrite paging_app, page_requests_app, Hp. cbn. by rewrite !app_nil_r.
    + eexists. eexists. split.
      { unfold log. cbn. f_equal. f_equal. trace_eq. }
      done.
  - eexists. eexists. split.
    { unfold bind, print, emit, ret, log. cbn. f_equal. f_equal. trace_eq. }
    done.
Qed.

Example fetch_pauses_example :
  List.map (fun e => match e with
                     | PlaylistRelationship _ _ offset _ => inl offset
                     | Sleep ms => inr ms
                     | _ => inr 0
                     end)
    (paging (trace (get_apple_music_tracks
                      (Demo.world (Demo.source 250) Demo.no_hits Demo.write_ok (Returns "y"))
                      5 "src" Demo.start).2))
  = [inl 0; inr 200; inl 100; inr 200; inl 200].
Proof. vm_compute. reflexivity. Qed.

(** ** [find_spotify_tracks] *)

Lemma searches_app (a b : list event) : searches (a ++ b) = searches a ++ searches b.
Proof. apply List.filter_app. Qed.

(** X5. Fallback: when the search with the literal title returns nothing,
    cleaning changes the title, and the search with the cleaned title
    returns a hit, the track is matched, with the id, the title and the
    first artist that the destination service gave -- not the source's
    spelling -- and nothing is added to the list of tracks not found. *)
Theorem cleaned_title_fallback (sv : services) (total i : nat) (track : Apple.track)
    (found : list Spotify.track) (not_found : list string) (st : state)
    (top_result : Spotify.item) (rest : list Spotify.item)
    (artist0 : string) (others : list string) :
  search sv (length (searches (trace st)))
    (query (Apple.name track) (Apple.artist track)) = Returns [] ->
  cleaned_name (Apple.name track) <> Apple.name track ->
  search sv (S (length (searches (trace st))))
    (query (cleaned_name (Apple.name track)) (Apple.artist track))
  = Returns (top_result :: rest) ->
  Spotify.item_artists top_result = artist0 :: others ->
  exists seg : list event,
    search_one sv total i track found not_found st
    = (Ret (found ++ [Spotify.Track (Spotify.item_id top_result) artist0
                        (Spotify.item_name top_result)],
            not_found),
       {| trace := trace st ++ seg; playlist := playlist st |})
    /\ searches seg
       = [Search (query (Apple.name track) (Apple.artist track)) (Returns []);
          Search (query (cleaned_name (Apple.name track)) (Apple.artist track))
            (Returns (top_result :: rest))].
Proof.
  intros H1 Hc H2 Ha.
  unfold search_one.
  unfold bind, try_except, sp_search, print, sleep, emit, of_reply, ret, raise.
  cbn [log trace playlist].
  rewrite searches_app. cbn [searches List.filter is_search]. rewrite app_nil_r, H1.
  cbn [log trace playlist].
  destruct (decide (cleaned_name (Apple.name track) = Apple.name track)) as [Heq|_];
    [done|].
  cbn [log trace playlist].
  rewrite !searches_app. cbn [searches List.filter is_search length].
  rewrite !app_nil_r, length_app. cbn [length]. rewrite Nat.add_1_r, H2, Ha.
  eexists. split.
  - unfold log. cbn. f_equal. f_equal. trace_eq.
  - reflexivity.
Qed.

Lemma cleaned_title_fallback_witness :
  exists seg : list event,
    search_one (Demo.world [] Demo.one_song Demo.write_ok (Returns "y")) 1 0
      (Apple.Track "Artist X" "Song (feat. Y)") [] [] Demo.start
    = (Ret ([] ++ [Spotify.Track "sp-1" "ARTIST X" "Song - Remastered"], []),
       {| trace := trace Demo.start ++ seg; playlist := playlist Demo.start |})
    /\ searches seg
       = [Search (query "Song (feat. Y)" "Artist X") (Returns []);
          Search (query (cleaned_name "Song (feat. Y)") "Artist X")
            (Returns [Spotify.Item "sp-1" "Song - Remastered" ["ARTIST X"; "Guest"]])].
Proof.
  apply (cleaned_title_fallback (Demo.world [] Demo.one_song Demo.write_ok (Returns "y"))
           1 0 (Apple.Track "Artist X" "Song (feat. Y)") [] [] Demo.start
           (Spotify.Item "sp-1" "Song - Remastered" ["ARTIST X"; "Guest"]) []
           "ARTIST X" ["Guest"]).
  - reflexivity.
  - discriminate.
  - reflexivity.
  - reflexivity.
Defined.

(** X6. A hit whose list of artists is empty is not matched: reading its
    first artist raises, the exception is caught with the others, and the
    track is recorded as a search error. *)
Theorem hit_without_artists_is_an_error (sv : services) (total i : nat) (track : Apple.track)
    (found : list Spotify.track) (not_found : list string) (st : state)
    (top_result : Spotify.item) (rest : list Spotify.item) :
  search sv (length (searches (trace st)))
    (query (Apple.name track) (Apple.artist track)) = Returns (top_result :: rest) ->
  Spotify.item_artists top_result = [] ->
  search_one sv total i track found not_found st
  = (Ret (found, not_found ++ [search_error_descriptor track]),
     {| trace := trace st
                   ++ [Print ("  (" +:+ Str.of_nat (i + 1) +:+ "/" +:+ Str.of_nat total
                              +:+ ") Searching for: '" +:+ Apple.name track
                              +:+ "' by '" +:+ Apple.artist track +:+ "'");
                       Search (query (Apple.name track) (Apple.artist track))
                         (Returns (top_result :: rest));
                       Print ("    - An error occurred while searching for '"
                              +:+ Apple.name track +:+ "': "
                              +:+ "list index out of range");
                       Sleep 100];
        playlist := playlist st |}).
Proof.
  intros H1 Ha.
  unfold search_one.
  unfold bind, try_except, sp_search, print, sleep, emit, of_reply, ret, raise.
  cbn [log trace playlist].
  rewrite searches_app. cbn [searches List.filter is_search]. rewrite app_nil_r, H1.
  cbn [log trace playlist]. rewrite Ha.
  unfold log, search_error_descriptor. cbn. f_equal. f_equal. trace_eq.
Qed.

Lemma hit_without_artists_is_an_error_witness :
  search_one (Demo.world [] Demo.anonymous_hit Demo.write_ok (Returns "y")) 1 0
    (Apple.Track "Artist X" "Song") [] [] Demo.start
  = (Ret ([], [] ++ [search_error_descriptor (Apple.Track "Artist X" "Song")]),
     {| trace := trace Demo.start
                   ++ [Print ("  (" +:+ Str.of_nat (0 + 1) +:+ "/" +:+ Str.of_nat 1
                              +:+ ") Searching for: '" +:+ "Song"
                              +:+ "' by '" +:+ "Artist X" +:+ "'");
                       Search (query "Song" "Artist X")
                         (Returns [Spotify.Item "sp-0" (query "Song" "Artist X") []]);
                       Print ("    - An error occurred while searching for '"
                              +:+ "Song" +:+ "': " +:+ "list index out of range");
                       Sleep 100];
        playlist := playlist Demo.start |}).
Proof.
  apply (hit_without_artists_is_an_error
           (Demo.world [] Demo.anonymous_hit Demo.write_ok (Returns "y")) 1 0
           (Apple.Track "Artist X" "Song") [] [] Demo.start
           (Spotify.Item "sp-0" (query "Song" "Artist X") []) []).
  - reflexivity.
  - reflexivity.
Defined.

Lemma search_one_pause (sv : services) (total i : nat) (track : Apple.track)
    (found : list Spotify.track) (not_found : list string) (st : state) :
  exists (seg : list event) (r : list Spotify.track * list string),
    search_one sv total i track found not_found st
    = (Ret r, {| trace := trace st ++ seg; playlist := playlist st |})
    /\ sleeps seg = [Sleep 100].
Proof.
  unfold search_one.
  unfold bind, try_except, sp_search, print, sleep, emit, of_reply, ret, raise.
  cbn [log trace playlist].
  destruct (search sv _ _) as [[|top rest]|e].
  - cbn [log trace playlist].
    destruct (decide (cleaned_name (Apple.name track) = Apple.name track)) as [Hc|Hc].
    + eexists. eexists. split; [unfold log; cbn; f_equal; f_equal; trace_eq | done].
    + cbn [log trace playlist].
      destruct (search sv _ (query (cleaned_name _) _)) as [[|top rest]|e].
      * eexists. eexists. split; [unfold log; cbn; f_equal; f_equal; trace_eq | done].
      * destruct (Spotify.item_artists top) as [|artist0 others];
          eexists; eexists;
          (split; [unfold log; cbn; f_equal; f_equal; trace_eq | done]).
      * eexists. eexists. split; [unfold log; cbn; f_equal; f_equal; trace_eq | done].
  - destruct (Spotify.item_artists top) as [|artist0 others];
      eexists; eexists;
      (split; [unfold log; cbn; f_equal; f_equal; trace_eq | done]).
  - eexists. eexists. split; [unfold log; cbn; f_equal; f_equal; trace_eq | done].
Qed.

Lemma search_one_budget (sv : services) (total i : nat) (track : Apple.track)
    (found : list Spotify.track) (not_found : list string) (st : state) :
  exists (seg : list event) (r : list Spotify.track * list string),
    search_one sv total i track found not_found st
    = (Ret r, {| trace := trace st ++ seg; playlist := playlist st |})
    /\ sleeps seg = [Sleep 100]
    /\ 1 <= length (searches seg) <= 2.
Proof.
  destruct (search_one_pause sv total i track found not_found st) as (seg & r & Hrun & Hs).
  destruct (search_one_lookup sv total i track found not_found st)
    as (out & seg' & Hrun' & r' & Hsr & _).
  destruct (same_run _ _ _ _ _ _ _ _ Hrun Hrun') as (_ & <- & _).
  exists seg, r. split; [done|]. split; [done|].
  destruct Hsr as [-> | [_ ->]]; simpl; lia.
Qed.

Lemma sleeps_app (a b : list event) : sleeps (a ++ b) = sleeps a ++ sleeps b.
Proof. apply List.filter_app. Qed.

Lemma search_all_budget (sv : services) (total : nat) (tracks : list Apple.track) :
  forall (i : nat) (found : list Spotify.track) (not_found : list string) (st : state),
  exists (evs : list event) (r : list Spotify.track * list string),
    search_all sv total i tracks found not_found st
    = (Ret r, {| trace := trace st ++ evs; playlist := playlist st |})
    /\ sleeps evs = replicate (length tracks) (Sleep 100)
    /\ length tracks <= length (searches evs) <= 2 * length tracks.
Proof.
  induction tracks as [|track tracks IH]; intros i found not_found st.
  - exists [], (found, not_found). simpl. unfold ret. rewrite app_nil_r. destruct st.
    split; [done|]. split; [done|]. simpl. lia.
  - simpl. unfold bind.
    destruct (search_one_budget sv total i track found not_found st)
      as (seg & r & -> & Hs & Hn).
    edestruct IH as (evs & r' & -> & Hs' & Hn').
    exists (seg ++ evs), r'. cbn [trace playlist]. rewrite app_assoc.
    split; [done|]. rewrite sleeps_app, searches_app, length_app, Hs, Hs'.
    split; [done|]. lia.
Qed.

(** X7. For [n] source tracks [find_spotify_tracks] makes at least [n] and
    at most [2 n] searches -- none for an empty list -- and pauses for
    100 ms exactly [n] times, once after each track. *)
Theorem find_spotify_tracks_budget (sv : services) (tracks : list Apple.track) (st : state) :
  exists (evs : list event) (r : list Spotify.track * list string),
    find_spotify_tracks sv tracks st
    = (Ret r, {| trace := trace st ++ evs; playlist := playlist st |})
    /\ length tracks <= length (searches evs) <= 2 * length tracks
    /\ sleeps evs = replicate (length tracks) (Sleep 100).
Proof.
  unfold find_spotify_tracks, bind, print, emit.
  edestruct (search_all_budget sv (length tracks) tracks 0 [] [])
    as (evs & r & -> & Hs & Hn).
  exists ([Print "-> Searching for tracks on Spotify..."] ++ evs
          ++ [Print (nl +:+ "-> Search complete.")]), r.
  split; [unfold ret, log; cbn; f_equal; f_equal; trace_eq|].
  rewrite !searches_app, !sleeps_app, !length_app, Hs. cbn.
  rewrite app_nil_r. split; [lia | done].
Qed.

(** ** The cleaned title *)

Lemma occurs_append_r (c : ascii) (a b : string) :
  occurs c b = true -> occurs c (a +:+ b) = true.
Proof.
  intros H. induction a as [|x a IH]; [done|].
  rewrite app_String. simpl. by rewrite IH, orb_true_r.
Qed.

Lemma append_assoc (a b c : string) : (a +:+ b) +:+ c = a +:+ (b +:+ c).
Proof. induction a as [|x a IH]; [done|]. by rewrite !app_String, IH. Qed.

Lemma match_here_suffix (s rest : string) :
  Re.match_here s = Some rest -> exists pre : string, s = pre +:+ rest.
Proof.
  assert (forall open close, Re.match_group open close s = Some rest ->
                             exists pre : string, s = pre +:+ rest) as Hg.
  { intros open close. unfold Re.match_group.
    destruct (lstrip_suffix s) as [ws Hws].
    destruct (Str.lstrip s) as [|x s'] eqn:E; [done|].
    destruct (Ascii.eqb x open); [|done].
    intros [b ->]%after_close_split.
    exists (ws +:+ String x (b +:+ String close EmptyString)). rewrite Hws.
    by rewrite append_assoc, app_String, append_assoc, app_String, app_empty. }
  unfold Re.match_here.
  destruct (Re.match_group "(" ")" s) as [r|] eqn:E1.
  - intros [= <-]. by eapply Hg.
  - apply Hg.
Qed.

(** What [re.sub] leaves is made of characters of the original. *)
Lemma occurs_sub_from (c : ascii) (steps : nat) :
  forall s, occurs c (Re.sub_from steps s) = true -> occurs c s = true.
Proof.
  induction steps as [|steps IH]; intros s; simpl; [done|].
  destruct s as [|x s]; [done|].
  destruct (Re.match_here (String x s)) as [rest|] eqn:E.
  - intros H%IH. destruct (match_here_suffix _ _ E) as [pre ->].
    by apply occurs_append_r.
  - simpl. intros [H|H]%orb_prop; [by rewrite H|].
    by rewrite (IH _ H), orb_true_r.
Qed.

Lemma occurs_after_close (close : ascii) (s : string) :
  occurs close s = true -> exists rest, Re.after_close close s = Some rest.
Proof.
  induction s as [|x s IH]; simpl; [done|].
  destruct (Ascii.eqb x close); [by eexists|]. exact IH.
Qed.

(** Where an [open] character is followed by a [close] one, the pattern
    matches. *)
Lemma open_then_close_matches (open close : ascii) (s : string) :
  (open = "("%char /\ close = ")"%char) \/ (open = "["%char /\ close = "]"%char) ->
  occurs close s = true ->
  Re.match_here (String open s) <> None.
Proof.
  intros Hoc [rest Hrest]%occurs_after_close. unfold Re.match_here, Re.match_group.
  destruct Hoc as [[-> ->] | [-> ->]].
  - change (Str.lstrip (String "(" s)) with (String "("%char s).
    cbn. by rewrite Hrest.
  - change (Str.lstrip (String "[" s)) with (String "["%char s).
    cbn. by rewrite Hrest.
Qed.

Lemma sub_from_has_no_group (open close : ascii) (steps : nat) :
  (open = "("%char /\ close = ")"%char) \/ (open = "["%char /\ close = "]"%char) ->
  forall s, String.length s <= steps ->
            has_groupb open close (Re.sub_from steps s) = false.
Proof.
  intros Hoc. induction steps as [|steps IH]; intros s Hlen.
  - by destruct s; [|simpl in Hlen; lia].
  - simpl. destruct s as [|x s]; [done|].
    destruct (Re.match_here (String x s)) as [rest|] eqn:E.
    + apply IH. apply match_here_shorter in E. simpl in *. lia.
    + simpl in *. rewrite IH by lia. rewrite orb_false_r.
      destruct (Ascii.eqb_spec x open) as [->|Hx]; [|done]. cbn.
      destruct (occurs close (Re.sub_from steps s)) eqn:Ho; [|done].
      apply occurs_sub_from in Ho.
      by destruct (open_then_close_matches open close s Hoc Ho).
Qed.

Lemma sub_plain (s : string) : plain (Re.sub s).
Proof.
  apply plainb_plain. unfold plainb, Re.sub.
  rewrite !sub_from_has_no_group; auto.
Qed.

Lemma has_groupb_lstrip (open close : ascii) (s : string) :
  has_groupb open close s = false -> has_groupb open close (Str.lstrip s) = false.
Proof.
  induction s as [|x s IH]; simpl; [done|].
  intros [H1 H2]%orb_false_elim. destruct (Str.isspace x); [by apply IH|].
  simpl. by rewrite H1, H2.
Qed.

Lemma occurs_rstrip (c : ascii) (s : string) :
  occurs c (Str.rstrip s) = true -> occurs c s = true.
Proof.
  induction s as [|x s IH]; simpl; [done|].
  destruct (Str.rstrip s) as [|y r] eqn:E.
  - destruct (Str.isspace x); simpl; [done|].
    rewrite orb_false_r. intros ->. done.
  - simpl in *. intros [H|H]%orb_prop; [by rewrite H|].
    by rewrite (IH H), orb_true_r.
Qed.

Lemma has_groupb_rstrip (open close : ascii) (s : string) :
  has_groupb open close s = false -> has_groupb open close (Str.rstrip s) = false.
Proof.
  induction s as [|x s IH]; simpl; [done|].
  intros [H1 H2]%orb_false_elim. specialize (IH H2).
  pose proof (occurs_rstrip close s) as Ho.
  destruct (Str.rstrip s) as [|y r] eqn:E.
  - destruct (Str.isspace x); simpl; [done|]. by rewrite andb_false_r.
  - change (has_groupb open close (String x (String y r)))
      with ((Ascii.eqb x open && occurs close (String y r))
            || has_groupb open close (String y r)).
    rewrite IH, orb_false_r.
    destruct (Ascii.eqb x open); [|done].
    destruct (occurs close (String y r)) eqn:E'; [|done].
    by rewrite (Ho eq_refl) in H1.
Qed.

Lemma strip_plain (s : string) : plainb s = true -> plainb (Str.strip s) = true.
Proof.
  unfold plainb, Str.strip. intros [H1 H2]%andb_prop.
  apply negb_true_iff in H1, H2.
  by rewrite !has_groupb_rstrip by by apply has_groupb_lstrip.
Qed.

Lemma rstrip_idempotent (s : string) : Str.rstrip (Str.rstrip s) = Str.rstrip s.
Proof.
  induction s as [|x s IH]; simpl; [done|].
  destruct (Str.rstrip s) as [|y r] eqn:E.
  - destruct (Str.isspace x) eqn:Hx; simpl; [done|]. by rewrite Hx.
  - change (Str.rstrip (String x (String y r)))
      with (match Str.rstrip (String y r) with
            | EmptyString => if Str.isspace x then EmptyString else String x EmptyString
            | String a b => String x (String a b)
            end).
    by rewrite IH.
Qed.

Lemma lstrip_rstrip_lstrip (s : string) :
  Str.lstrip (Str.rstrip (Str.lstrip s)) = Str.rstrip (Str.lstrip s).
Proof.
  induction s as [|x s IH]; simpl; [done|].
  destruct (Str.isspace x) eqn:Hx; [exact IH|].
  change (Str.rstrip (String x s))
    with (match Str.rstrip s with
          | EmptyString => if Str.isspace x then EmptyString else String x EmptyString
          | String a b => String x (String a b)
          end).
  rewrite Hx. destruct (Str.rstrip s) as [|y r]; simpl; by rewrite Hx.
Qed.

Lemma strip_idempotent (s : string) : Str.strip (Str.strip s) = Str.strip s.
Proof.
  unfold Str.strip. by rewrite lstrip_rstrip_lstrip, rstrip_idempotent.
Qed.

(** X8. The cleaned title holds no parenthetical and no bracketed part and
    no whitespace at either end, whatever the title was; so cleaning a
    cleaned title changes nothing. *)
Theorem cleaned_name_is_clean (name : string) :
  plain (cleaned_name name)
  /\ Str.strip (cleaned_name name) = cleaned_name name
  /\ cleaned_name (cleaned_name name) = cleaned_name name.
Proof.
  assert (plainb (cleaned_name name) = true) as Hp.
  { unfold cleaned_name. apply strip_plain. unfold plainb, Re.sub.
    rewrite !sub_from_has_no_group; auto. }
  apply plainb_plain in Hp.
  assert (Str.strip (cleaned_name name) = cleaned_name name) as Hs.
  { unfold cleaned_name. apply strip_idempotent. }
  split; [exact Hp|]. split; [exact Hs|].
  unfold cleaned_name at 1. unfold Re.sub. by rewrite sub_from_plain.
Qed.

Example cleaned_name_is_clean_example :
  cleaned_name "  Song (feat. A) [Live] ( " = "Song ("
  /\ cleaned_name "Song (" = "Song (".
Proof. split; reflexivity. Qed.

(** ** [update_spotify_playlist] *)

(** Either the next [m] writes are accepted, or one of them is the first
    to be refused. *)
Lemma accepts_or_refused (sv : services) (st : state) (m : nat) :
  accepts sv st m
  \/ exists (k : nat) (e : exn),
       k < m /\ accepts sv st k
       /\ playlist_write sv (length (writes (trace st)) + k) = Raises e.
Proof.
  induction m as [|m [IH | (k & e & Hk & Hacc & He)]].
  - left. intros j Hj. lia.
  - destruct (playlist_write sv (length (writes (trace st)) + m)) as [[]|e] eqn:E.
    + left. intros j Hj. destruct (decide (j = m)) as [->|Hne]; [done|].
      apply IH. lia.
    + right. exists m, e. split; [lia|]. by split.
  - right. exists k, e. split; [lia | done].
Qed.

Lemma answered_all (calls : list (reply unit -> event)) :
  answered calls (replicate (length calls) (Returns tt))
  = List.map (fun call => call (Returns tt)) calls.
Proof. unfold answered. induction calls as [|c calls IH]; simpl; [done|]. by rewrite IH. Qed.

Lemma answered_until (calls : list (reply unit -> event)) (k : nat)
    (call : reply unit -> event) (e : exn) :
  calls !! k = Some call ->
  answered calls (replicate k (Returns tt) ++ [Raises e])
  = List.map (fun c => c (Returns tt)) (take k calls) ++ [call (Raises e)].
Proof.
  unfold answered. revert k. induction calls as [|c calls IH]; intros k Hk; [done|].
  destruct k as [|k]; simpl in *.
  - injection Hk as ->. by destruct calls.
  - by rewrite IH.
Qed.

Lemma planned_accepted_until (pid : string) (ids : list string) (j : nat) :
  List.map (fun call => call (Returns tt)) (take (S j) (planned_writes pid ids))
  = replaced pid :: List.map (added pid) (take j (chunks ids)).
Proof.
  unfold planned_writes. simpl. f_equal. rewrite firstn_map. apply map_map.
Qed.

Lemma planned_accepted (pid : string) (ids : list string) :
  List.map (fun call => call (Returns tt)) (planned_writes pid ids)
  = replaced pid :: List.map (added pid) (chunks ids).
Proof. unfold planned_writes. simpl. f_equal. apply map_map. Qed.

Lemma inputs_added (pid : string) (cs : list (list string)) :
  List.filter is_input (List.map (added pid) cs) = [].
Proof. by induction cs as [|c cs IH]. Qed.

Lemma returned_replicate (n : nat) :
  List.filter returned (replicate n (Returns tt : reply unit)) = replicate n (Returns tt).
Proof. induction n as [|n IH]; simpl; [done|]. by rewrite IH. Qed.

(** X9. [update_spotify_playlist] never reads the console and writes by
    its plan, whatever the destination service answers.  The write calls
    it makes are the planned ones (the clearing replace, then the chunks)
    in order, up to the first that raises: every answer but possibly the
    last is a return, and no call follows a refusal.  Nothing is rolled
    back: the playlist ends up holding what the calls that returned have
    put there. *)
Theorem update_writes_follow_the_plan (sv : services) (pid : string)
    (tracks : list Spotify.track) (st : state) :
  exists (evs : list event) (final : list string) (answers : list (reply unit))
         (r : outcome unit),
    update_spotify_playlist sv pid tracks st
    = (r, {| trace := trace st ++ evs; playlist := final |})
    /\ List.filter is_input evs = []
    /\ writes evs = answered (planned_writes pid (sorted_ids tracks)) answers
    /\ length answers <= length (planned_writes pid (sorted_ids tracks))
    /\ (forall i a, answers !! i = Some a -> S i < length answers -> a = Returns tt)
    /\ (tracks <> [] -> answers <> [])
    /\ final = applied (playlist st) (length (List.filter returned answers))
                 (sorted_ids tracks).
Proof.
  destruct tracks as [|t tracks].
  { exists [Print "No tracks to add. Exiting."], (playlist st), [], (Ret tt).
    split; [done|]. split; [done|]. split; [done|]. split; [simpl; lia|].
    split; [intros i a Hi; by rewrite lookup_nil in Hi|]. by split. }
  set (tr := t :: tracks). assert (tr <> []) as Hne by done.
  set (ids := sorted_ids tr).
  destruct (accepts_or_refused sv st (1 + length (chunks ids)))
    as [Hacc | (k & e & Hk & Hacc & He)].
  - rewrite (update_accepted sv pid tr st Hne Hacc). fold ids. clearbody ids.
    exists (update_header ++ [replaced pid] ++ List.map (added pid) (chunks ids)
            ++ [Print success_line]),
      ids, (replicate (length (planned_writes pid ids)) (Returns tt)), (Ret tt).
    split; [done|]. split.
    { by rewrite !List.filter_app, inputs_added. }
    split.
    { rewrite answered_all, planned_accepted, !writes_app, writes_added.
      by rewrite app_nil_r. }
    split; [by rewrite length_replicate|].
    split; [intros i a Hi _; by apply lookup_replicate in Hi as [-> _]|].
    split; [by unfold planned_writes|].
    rewrite returned_replicate, length_replicate. unfold planned_writes.
    cbn [length applied]. rewrite length_map, take_ge by lia.
    symmetry. apply chunks_concat.
  - destruct k as [|j].
    + rewrite Nat.add_0_r in He.
      rewrite (update_replace_refused sv pid tr st e Hne He). clearbody ids.
      exists (update_header ++ [PlaylistReplaceItems pid [] (Raises e); Print (error_line e)]),
        (playlist st), [Raises e], (Ret tt).
      split; [reflexivity|]. split; [reflexivity|].
      split; [unfold answered, planned_writes; simpl; by rewrite zip_with_nil_r|].
      split; [unfold planned_writes; simpl; lia|].
      split; [intros i a Hi Hlt; simpl in Hlt; lia|]. by split.
    + assert (is_Some (chunks ids !! j)) as [c Hc].
      { apply lookup_lt_is_Some. lia. }
      rewrite (update_add_refused sv pid tr st j c e Hne Hc Hacc)
        by (by rewrite <- He).
      fold ids. clearbody ids.
      exists (update_header ++ [replaced pid]
              ++ List.map (added pid) (take j (chunks ids))
              ++ [PlaylistAddItems pid c (Raises e); Print (error_line e)]),
        (concat (take j (chunks ids))),
        (replicate (S j) (Returns tt) ++ [Raises e]), (Ret tt).
      split; [done|]. split.
      { by rewrite !List.filter_app, inputs_added. }
      split.
      { rewrite (answered_until _ (S j) (PlaylistAddItems pid c) e).
        - by rewrite planned_accepted_until, !writes_app, writes_added.
        - unfold planned_writes. simpl. by rewrite list_lookup_fmap, Hc. }
      split.
      { rewrite length_app, length_replicate. unfold planned_writes. simpl.
        rewrite length_map. lia. }
      split.
      { intros i a Hi Hlt. rewrite length_app, length_replicate in Hlt. simpl in Hlt.
        rewrite lookup_app_l in Hi by (rewrite length_replicate; lia).
        by apply lookup_replicate in Hi as [-> _]. }
      split; [by destruct j|].
      rewrite List.filter_app, returned_replicate. cbn [List.filter returned].
      by rewrite app_nil_r, length_replicate.
Qed.

(** X10. With a destination service that accepts every write, updating
    the playlist a second time with the same tracks leaves it as the first
    update left it, and what it holds does not depend on what it held
    before; the second update makes the same write calls over again. *)
Theorem update_twice (sv : services) (pid : string) (tracks : list Spotify.track)
    (st other : state) :
  tracks <> [] ->
  (forall k, playlist_write sv k = Returns tt) ->
  let once := (update_spotify_playlist sv pid tracks st).2 in
  let twice := (update_spotify_playlist sv pid tracks once).2 in
  playlist twice = playlist once
  /\ playlist once = playlist (update_spotify_playlist sv pid tracks other).2
  /\ exists calls : list event,
       writes (trace once) = writes (trace st) ++ calls
       /\ writes (trace twice) = writes (trace st) ++ calls ++ calls.
Proof.
  intros Hne Hok once twice. subst once twice.
  rewrite (update_accepted sv pid tracks st Hne) by (intros j _; apply Hok).
  rewrite (update_accepted sv pid tracks other Hne) by (intros j _; apply Hok).
  rewrite (update_accepted sv pid tracks _ Hne) by (intros j _; apply Hok).
  cbn [snd playlist trace]. split; [done|]. split; [done|].
  exists (writes (update_header ++ [replaced pid]
                  ++ List.map (added pid) (chunks (sorted_ids tracks))
                  ++ [Print success_line])).
  set (calls := update_header ++ [replaced pid]
                  ++ List.map (added pid) (chunks (sorted_ids tracks))
                  ++ [Print success_line]).
  split; [apply writes_app|].
  by rewrite (writes_app (trace st ++ calls)), (writes_app (trace st)), <- app_assoc.
Qed.

Lemma update_twice_witness :
  let sv := Demo.world [] Demo.no_hits Demo.write_ok (Returns "y") in
  let once := (update_spotify_playlist sv "dest" Demo.zeta_alpha_zeta Demo.start).2 in
  let twice := (update_spotify_playlist sv "dest" Demo.zeta_alpha_zeta once).2 in
  playlist twice = playlist once
  /\ playlist once
     = playlist (update_spotify_playlist sv "dest" Demo.zeta_alpha_zeta
                   {| trace := []; playlist := [] |}).2
  /\ exists calls : list event,
       writes (trace once) = writes (trace Demo.start) ++ calls
       /\ writes (trace twice) = writes (trace Demo.start) ++ calls ++ calls.
Proof.
  apply (update_twice (Demo.world [] Demo.no_hits Demo.write_ok (Returns "y")) "dest"
           Demo.zeta_alpha_zeta Demo.start {| trace := []; playlist := [] |}).
  - discriminate.
  - intros k. reflexivity.
Defined.

(** X11. No append call is empty and every chunk but the last holds
    exactly 100 ids: chunk [i] is the slice of the sorted ids that starts
    at position [100 * i]. *)
Theorem chunk_shape (ids : list string) (i : nat) (c : list string) :
  chunks ids !! i = Some c ->
  c = take 100 (drop (i * 100) ids)
  /\ 1 <= length c <= 100
  /\ (S i < length (chunks ids) -> length c = 100).
Proof.
  intros Hc. pose proof (lookup_lt_Some _ _ _ Hc) as Hi.
  rewrite chunks_length in *.
  unfold chunks, range in Hc.
  rewrite !list_lookup_fmap in Hc.
  rewrite lookup_seq_lt in Hc
    by (replace (length ids - 0 + 100 - 1) with (length ids + 99) by lia; exact Hi).
  cbn in Hc. injection Hc as <-.
  pose proof (Nat.div_mod_eq (length ids + 99) 100) as Hdm.
  pose proof (Nat.mod_upper_bound (length ids + 99) 100 ltac:(lia)) as Hmod.
  split; [done|]. rewrite length_take, length_drop. lia.
Qed.

Lemma chunk_shape_witness :
  take 50 (drop 200 (sorted_ids (Demo.matched 250)))
  = take 100 (drop (2 * 100) (sorted_ids (Demo.matched 250)))
  /\ 1 <= length (take 50 (drop 200 (sorted_ids (Demo.matched 250)))) <= 100
  /\ (3 < length (chunks (sorted_ids (Demo.matched 250))) ->
      length (take 50 (drop 200 (sorted_ids (Demo.matched 250)))) = 100).
Proof.
  apply (chunk_shape (sorted_ids (Demo.matched 250)) 2
           (take 50 (drop 200 (sorted_ids (Demo.matched 250))))).
  vm_compute. reflexivity.
Defined.

(** X12. Sorting by artist is idempotent, and tracks that are already in
    artist order are sent in the order they came: the list that [main]
    shows for review, sorted once, is written in exactly that order by
    [update_spotify_playlist], which sorts again. *)
Theorem sorting_again_changes_nothing (tracks : list Spotify.track) :
  sorted artist_key (sorted artist_key tracks) = sorted artist_key tracks
  /\ sorted_ids (sorted artist_key tracks) = sorted_ids tracks
  /\ (StronglySorted (key_le artist_key) tracks -> sorted artist_key tracks = tracks).
Proof.
  assert (forall l, StronglySorted (key_le artist_key) l -> sorted artist_key l = l) as Hfix.
  { intros l Hl. symmetry. by apply sorted_unique. }
  assert (sorted artist_key (sorted artist_key tracks) = sorted artist_key tracks) as Hidem.
  { apply Hfix, sorted_ordered. }
  split; [exact Hidem|]. split; [|apply Hfix].
  unfold sorted_ids. by rewrite Hidem.
Qed.

(** ** [main] *)

(** X13. When the identity check against the destination service fails,
    [main] prints the authentication error and returns: the source service
    is not contacted, nothing is searched, asked or written. *)
Theorem main_authentication_failure (sv : services) (fuel : nat) (st : state) (e : exn) :
  spotify_me sv = Raises e ->
  main sv fuel st
  = (Ret tt,
     {| trace := trace st
                   ++ [SpotifyMe (Raises e);
                       Print ("Could not authenticate with Spotify. Please check your credentials. Error: "
                              +:+ e)];
        playlist := playlist st |}).
Proof.
  intros He. unfold main, bind, try_except, sp_me, print, emit. rewrite He.
  unfold log. cbn. f_equal. f_equal. trace_eq.
Qed.

Lemma main_authentication_failure_witness :
  main Demo.unauthenticated 3 Demo.start
  = (Ret tt,
     {| trace := trace Demo.start
                   ++ [SpotifyMe (Raises "401 Unauthorized");
                       Print ("Could not authenticate with Spotify. Please check your credentials. Error: "
                              +:+ "401 Unauthorized")];
        playlist := playlist Demo.start |}).
Proof.
  apply (main_authentication_failure Demo.unauthenticated 3 Demo.start). reflexivity.
Defined.

Lemma confined_allowed (allowed allowed' : event -> bool) {A : Type} (P : A -> Prop)
    (m : M A) :
  (forall e, allowed e = true -> allowed' e = true) ->
  confined allowed P m -> confined allowed' P m.
Proof.
  intros Himp Hm st. destruct (Hm st) as (evs & r & Hrun & Ha & Hp).
  exists evs, r. split; [done|]. split; [|done].
  apply forallb_forall. intros e He. apply Himp.
  by eapply forallb_forall in Ha.
Qed.

Lemma confined_sp_me (sv : services) (allowed : event -> bool) :
  (forall r, allowed (SpotifyMe r) = true) ->
  confined allowed (fun _ => True) (sp_me sv).
Proof.
  intros Ha st. unfold sp_me. exists [SpotifyMe (spotify_me sv)].
  destruct (spotify_me sv); eexists; (split; [reflexivity|]); cbn; by rewrite Ha.
Qed.

(** X14. When no record that the source service returns is usable,
    [main] stops after the fetch: it makes no search, asks for no
    confirmation and writes nothing. *)
Theorem main_without_usable_records (sv : services) (fuel : nat) (st : state) :
  nothing_usable sv (APPLE_PLAYLIST_ID sv) ->
  exists (evs : list event) (r : outcome unit),
    main sv fuel st = (r, {| trace := trace st ++ evs; playlist := playlist st |})
    /\ searches evs = [] /\ List.filter is_input evs = [] /\ writes evs = [].
Proof.
  intros Hn.
  assert (confined no_io_no_search (fun _ : unit => True) (main sv fuel)) as Hm.
  { unfold main.
    eapply confined_bind with (P := fun _ => True).
    { apply confined_try_except.
      - eapply confined_bind; [by apply confined_sp_me|]. intros _ _. by apply confined_ret.
      - intros e. eapply confined_bind; [by apply confined_emit|]. intros _ _.
        by apply confined_ret. }
    intros [|] _; cbn [negb]; [|by apply confined_ret].
    eapply confined_bind; [apply confined_get_apple_music_tracks|].
    intros apple_tracks Ha. cbn beta in Ha.
    destruct (Ha Hn) as [-> | ->]; by apply confined_ret. }
  destruct (Hm st) as (evs & r & Hrun & Ha & _).
  apply no_io_no_search_spec in Ha as [[Hw Hi] Hs].
  by exists evs, r.
Qed.

Lemma main_without_usable_records_witness :
  exists (evs : list event) (r : outcome unit),
    main (Demo.world [Demo.nameless; Demo.nameless] Demo.any_hit Demo.write_ok (Returns "y"))
      3 Demo.start
    = (r, {| trace := trace Demo.start ++ evs; playlist := playlist Demo.start |})
    /\ searches evs = [] /\ List.filter is_input evs = [] /\ writes evs = [].
Proof.
  apply (main_without_usable_records
           (Demo.world [Demo.nameless; Demo.nameless] Demo.any_hit Demo.write_ok
              (Returns "y")) 3 Demo.start).
  intros offset page_of_tracks [= <-].
  destruct offset as [|[|[|offset]]]; reflexivity.
Defined.

Section NoMatch.
Context (sv : services).

Lemma confined_sp_search (q : string) :
  confined no_io (fun items => no_match sv -> items = []) (sp_search sv q).
Proof.
  intros st. unfold sp_search.
  set (k := length (searches (trace st))).
  exists [Search q (search sv k q)].
  destruct (search sv k q) as [items|e] eqn:E; eexists;
    (split; [reflexivity|]); split; try done.
  intros a [= <-] Hn. destruct (Hn k q) as [H | [e H]]; congruence.
Qed.

Lemma confined_search_one (total i : nat) (track : Apple.track)
    (found : list Spotify.track) (not_found : list string) :
  confined no_io (fun r => no_match sv -> r.1 = found)
    (search_one sv total i track found not_found).
Proof.
  unfold search_one.
  eapply confined_bind; [by apply confined_emit|]. intros _ _.
  eapply confined_bind with (P := fun r => no_match sv -> r.1 = found).
  2: { intros r Hr. eapply confined_bind; [by apply confined_emit|]. intros _ _.
       by apply confined_ret. }
  apply confined_try_except.
  - eapply confined_bind; [apply confined_sp_search|]. intros result Hres. cbn beta in Hres.
    eapply confined_bind with (P := fun items => no_match sv -> items = []).
    + destruct result as [|top rest]; [|by apply confined_ret].
      eapply confined_bind; [by apply confined_emit|]. intros _ _.
      destruct (decide (cleaned_name (Apple.name track) = Apple.name track)).
      * by apply confined_ret.
      * eapply confined_bind; [by apply confined_emit|]. intros _ _.
        apply confined_sp_search.
    + intros result' Hres'. cbn beta in Hres'.
      destruct result' as [|top rest].
      * eapply confined_bind; [by apply confined_emit|]. intros _ _.
        by apply confined_ret.
      * destruct (Spotify.item_artists top) as [|artist0 others].
        -- apply confined_raise.
        -- eapply confined_bind; [by apply confined_emit|]. intros _ _.
           apply confined_ret. intros Hn. by specialize (Hres' Hn).
  - intros e. eapply confined_bind; [by apply confined_emit|]. intros _ _.
    by apply confined_ret.
Qed.

Lemma confined_search_all (total : nat) (tracks : list Apple.track) :
  forall (i : nat) (found : list Spotify.track) (not_found : list string),
    confined no_io (fun r => no_match sv -> r.1 = found)
      (search_all sv total i tracks found not_found).
Proof.
  induction tracks as [|track tracks IH]; intros i found not_found; simpl.
  - by apply confined_ret.
  - eapply confined_bind; [apply confined_search_one|]. intros r Hr. cbn beta in Hr.
    eapply confined_weaken; [|apply IH]. cbn beta. intros r' Hr' Hn.
    by rewrite (Hr' Hn), (Hr Hn).
Qed.

Lemma confined_find_spotify_tracks (tracks : list Apple.track) :
  confined no_io (fun r => no_match sv -> r.1 = []) (find_spotify_tracks sv tracks).
Proof.
  unfold find_spotify_tracks.
  eapply confined_bind; [by apply confined_emit|]. intros _ _.
  eapply confined_bind; [apply confined_search_all|]. intros r Hr.
  eapply confined_bind; [by apply confined_emit|]. intros _ _.
  by apply confined_ret.
Qed.

End NoMatch.

(** X15. When no search of the destination service has a hit (each
    returns nothing or raises), [main] never asks for a confirmation and
    writes nothing: with nothing matched there is nothing to confirm. *)
Theorem main_without_matches (sv : services) (fuel : nat) (st : state) :
  no_match sv ->
  exists (evs : list event) (r : outcome unit),
    main sv fuel st = (r, {| trace := trace st ++ evs; playlist := playlist st |})
    /\ List.filter is_input evs = [] /\ writes evs = [].
Proof.
  intros Hn.
  assert (confined no_io (fun _ : unit => True) (main sv fuel)) as Hm.
  { unfold main.
    eapply confined_bind with (P := fun _ => True).
    { apply confined_try_except.
      - eapply confined_bind; [by apply confined_sp_me|]. intros _ _. by apply confined_ret.
      - intros e. eapply confined_bind; [by apply confined_emit|]. intros _ _.
        by apply confined_ret. }
    intros [|] _; cbn [negb]; [|by apply confined_ret].
    eapply confined_bind with (P := fun _ => True).
    { eapply confined_allowed; [|eapply confined_weaken;
                                  [|apply confined_get_apple_music_tracks]]; [|done].
      intros e. unfold no_io_no_search. by intros [H _]%andb_prop. }
    intros [[|t apple_tracks]|] _; try by apply confined_ret.
    eapply confined_bind; [apply confined_find_spotify_tracks|].
    intros [spotify_tracks not_found_tracks] Hr. cbn [fst snd] in *.
    rewrite (Hr Hn).
    do 3 (eapply confined_bind; [by apply confined_emit|]; intros _ _).
    eapply confined_bind with (P := fun _ => True).
    { destruct not_found_tracks; [by apply confined_ret|].
      eapply confined_bind; [by apply confined_emit|]. intros _ _.
      apply confined_for_each. intros x. by apply confined_emit. }
    intros _ _.
    eapply confined_bind with (P := fun _ => True); [by apply confined_ret|].
    intros _ _. eapply confined_bind; [by apply confined_emit|]. intros _ _.
    by apply confined_emit. }
  destruct (Hm st) as (evs & r & Hrun & Ha & _).
  apply no_io_spec in Ha as [Hw Hi].
  by exists evs, r.
Qed.

Lemma main_without_matches_witness :
  exists (evs : list event) (r : outcome unit),
    main (Demo.world (Demo.source 3) Demo.no_hits Demo.write_ok (Returns "y")) 3 Demo.start
    = (r, {| trace := trace Demo.start ++ evs; playlist := playlist Demo.start |})
    /\ List.filter is_input evs = [] /\ writes evs = [].
Proof.
  apply (main_without_matches
           (Demo.world (Demo.source 3) Demo.no_hits Demo.write_ok (Returns "y"))
           3 Demo.start).
  intros k q. by left.
Defined.

Example main_without_matches_example :
  let r := main (Demo.world (Demo.source 3) Demo.no_hits Demo.write_ok (Returns "y"))
             3 Demo.start in
  r.1 = Ret tt
  /\ last (trace r.2) = Some (Print (nl +:+ "No tracks to sync. Exiting."))
  /\ length (searches (trace r.2)) = 3.
Proof. vm_compute. repeat split; reflexivity. Qed.

(** X16. The prompt is not guarded: when reading the console raises (end
    of input, say), nothing has been written, and if the prompt had been
    reached the exception ends [main], the failed read being the last
    thing that happened. *)
Theorem main_console_failure (sv : services) (fuel : nat) (st : state) (e : exn) :
  console_input sv = Raises e ->
  exists (evs : list event) (r : outcome unit),
    main sv fuel st = (r, {| trace := trace st ++ evs; playlist := playlist st |})
    /\ writes evs = []
    /\ (Input confirmation_prompt (Raises e) ∈ evs ->
        r = Exc e /\ last evs = Some (Input confirmation_prompt (Raises e))).
Proof.
  intros He.
  destruct (main_gated sv fuel st)
    as (pre & Hpre & [[r Hrun] | (tracks & Hne & Hrun)]).
  - exists pre, r. destruct Hpre as [Hw Hi]. do 2 (split; [done|]).
    intros Hin. by apply (no_input_event pre) in Hin.
  - destruct Hpre as [Hw Hi].
    exists (pre ++ [Input confirmation_prompt (Raises e)]), (Exc e).
    split.
    { rewrite Hrun. unfold confirm_and_update, bind, input. rewrite He.
      unfold log. cbn. f_equal. f_equal. trace_eq. }
    split; [by rewrite writes_app, Hw|].
    intros _. split; [done|]. apply last_snoc.
Qed.

Lemma main_console_failure_witness :
  exists (evs : list event) (r : outcome unit),
    main (Demo.world (Demo.source 3) Demo.any_hit Demo.write_ok (Raises "EOF when reading a line"))
      3 Demo.start
    = (r, {| trace := trace Demo.start ++ evs; playlist := playlist Demo.start |})
    /\ writes evs = []
    /\ (Input confirmation_prompt (Raises "EOF when reading a line") ∈ evs ->
        r = Exc "EOF when reading a line"
        /\ last evs = Some (Input confirmation_prompt (Raises "EOF when reading a line"))).
Proof.
  apply (main_console_failure
           (Demo.world (Demo.source 3) Demo.any_hit Demo.write_ok
              (Raises "EOF when reading a line")) 3 Demo.start).
  reflexivity.
Defined.

Example main_console_failure_example :
  let r := main (Demo.world (Demo.source 3) Demo.any_hit Demo.write_ok
                   (Raises "EOF when reading a line")) 3 Demo.start in
  r.1 = Exc "EOF when reading a line"
  /\ last (trace r.2) = Some (Input confirmation_prompt (Raises "EOF when reading a line"))
  /\ playlist r.2 = playlist Demo.start.
Proof. vm_compute. repeat split; reflexivity. Qed.

(** *** The whole run *)

Lemma bind_ret {A B : Type} (m : M A) (k : A -> M B) (st st' : state) (a : A) :
  m st = (Ret a, st') -> bind m k st = k a st'.
Proof. unfold bind. by intros ->. Qed.

Lemma for_each_print {A : Type} (l : list A) (line : A -> string) (st : state) :
  for_each l (fun x => print (line x)) st
  = (Ret tt, {| trace := trace st ++ List.map (fun x => Print (line x)) l;
                playlist := playlist st |}).
Proof.
  revert st. induction l as [|x l IH]; intros st; simpl.
  - unfold ret. rewrite app_nil_r. by destruct st.
  - unfold bind, print, emit. rewrite IH. unfold log. cbn. f_equal. f_equal. trace_eq.
Qed.

Lemma print_block {A : Type} (l l' : list A) (head : string) (line : A -> string)
    (st : state) :
  (match l with
   | [] => ret tt
   | _ :: _ => bind (print head) (fun _ => for_each l' (fun x => print (line x)))
   end) st
  = (Ret tt, {| trace := trace st ++ match l with
                                     | [] => []
                                     | _ :: _ => Print head :: List.map (fun x => Print (line x)) l'
                                     end;
                playlist := playlist st |}).
Proof.
  destruct l as [|x l].
  - unfold ret. rewrite app_nil_r. by destruct st.
  - unfold bind at 1. unfold print at 1, emit. rewrite for_each_print.
    unfold log. cbn. f_equal. f_equal. trace_eq.
Qed.

Lemma fetch_serves (sv : services) (pid : string) (pl : list raw_track)
    (fuel : nat) (st : state) :
  serves sv pid pl -> Forall Spec.conforms pl -> length pl / 100 < fuel ->
  exists evs : list event,
    get_apple_music_tracks sv fuel pid st
    = (Ret (Some (Spec.usable_entries pl)),
       {| trace := trace st ++ evs; playlist := playlist st |})
    /\ searches evs = [] /\ harmless evs.
Proof.
  intros Hserves Hpl Hfuel.
  destruct (fetch_conforming sv pid pl fuel st) as (evs & Hrun & _); [done..|].
  destruct (confined_get_apple_music_tracks sv pid fuel st) as (evs' & r' & Hrun' & Hall & _).
  destruct (same_run _ _ _ _ _ _ _ _ Hrun Hrun') as (_ & <- & _).
  apply no_io_no_search_spec in Hall as [Hh Hquiet]. by exists evs.
Qed.

Lemma searches_concat (segs : list (list event)) :
  searches (concat segs) = concat (List.map searches segs).
Proof.
  induction segs as [|seg segs IH]; [done|].
  cbn [concat List.map]. by rewrite searches_app, IH.
Qed.

Lemma searches_prints {A : Type} (line : A -> string) (l : list A) :
  searches (List.map (fun x => Print (line x)) l) = [].
Proof. by induction l. Qed.

Lemma searches_print (line : string) (evs : list event) :
  searches (Print line :: evs) = searches evs.
Proof. reflexivity. Qed.

Lemma searches_added (pid : string) (l : list (list string)) :
  searches (List.map (added pid) l) = [].
Proof. by induction l. Qed.

Lemma find_run (sv : services) (tracks : list Apple.track) (st : state) :
  exists (outs : list MatchResult) (segs : list (list event)) (evs : list event),
    find_spotify_tracks sv tracks st
    = (Ret (matched_of outs, unmatched_of outs),
       {| trace := trace st ++ evs; playlist := playlist st |})
    /\ Forall3 lookup tracks segs outs
    /\ searches evs = concat (List.map searches segs).
Proof.
  unfold find_spotify_tracks, bind, print, emit.
  edestruct (search_all_lookup sv (length tracks) tracks 0 [] [])
    as (outs & segs & -> & HF).
  exists outs, segs,
    ([Print "-> Searching for tracks on Spotify..."] ++ concat segs
     ++ [Print (nl +:+ "-> Search complete.")]).
  split; [|split; [exact HF|]].
  - unfold ret, log. cbn. f_equal. f_equal. trace_eq.
  - rewrite !searches_app, searches_concat. cbn. by rewrite app_nil_r.
Qed.

(** ** The confirmation, on a run that reaches the prompt *)

Lemma search_one_first_hit (sv : services) (total i : nat) (track : Apple.track)
    (found : list Spotify.track) (not_found : list string) (st : state)
    (top_result : Spotify.item) (rest : list Spotify.item)
    (artist0 : string) (others : list string) :
  search sv (length (searches (trace st)))
    (query (Apple.name track) (Apple.artist track)) = Returns (top_result :: rest) ->
  Spotify.item_artists top_result = artist0 :: others ->
  exists seg : list event,
    search_one sv total i track found not_found st
    = (Ret (found ++ [Spotify.Track (Spotify.item_id top_result) artist0
                        (Spotify.item_name top_result)],
            not_found),
       {| trace := trace st ++ seg; playlist := playlist st |}).
Proof.
  intros H1 Ha.
  unfold search_one.
  unfold bind, try_except, sp_search, print, sleep, emit, of_reply, ret, raise.
  cbn [log trace playlist].
  rewrite searches_app. cbn [searches List.filter is_search]. rewrite app_nil_r, H1.
  cbn [log trace playlist]. rewrite Ha.
  eexists. unfold log. cbn. f_equal. f_equal. trace_eq.
Qed.

(** When the first search for the first track has a hit, the list of
    matched tracks is not empty. *)
Lemma find_first_hit (sv : services) (t : Apple.track) (tracks : list Apple.track)
    (st : state) (top_result : Spotify.item) (rest : list Spotify.item)
    (artist0 : string) (others : list string) :
  search sv (length (searches (trace st)))
    (query (Apple.name t) (Apple.artist t)) = Returns (top_result :: rest) ->
  Spotify.item_artists top_result = artist0 :: others ->
  exists (found : list Spotify.track) (not_found : list string) (evs : list event),
    find_spotify_tracks sv (t :: tracks) st
    = (Ret (found, not_found), {| trace := trace st ++ evs; playlist := playlist st |})
    /\ found <> [] /\ harmless evs.
Proof.
  intros H1 Ha.
  destruct (quiet_find_spotify_tracks sv (t :: tracks) st) as (evs & r & Hrun & Hh).
  assert (exists found not_found, r = Ret (found, not_found) /\ found <> [])
    as (found & not_found & -> & Hne); [|by exists found, not_found, evs].
  revert Hrun. unfold find_spotify_tracks.
  unfold bind at 1, print at 1, emit. cbn [search_all]. unfold bind at 1 2.
  destruct (search_one_first_hit sv (length (t :: tracks)) 0 t [] []
              (log (Print "-> Searching for tracks on Spotify...") st)
              top_result rest artist0 others) as [seg ->]; [|done|].
  { unfold log. cbn [trace]. rewrite searches_app. cbn. by rewrite app_nil_r. }
  cbn [fst snd].
  match goal with
  | |- context [search_all sv ?n ?i tracks ?f ?nf ?s] =>
      destruct (search_all_lookup sv n tracks i f nf s) as (outs & segs & -> & _)
  end.
  unfold print, emit, ret. intros [= <- _]. eexists _, _. split; [reflexivity|].
  simpl. discriminate.
Qed.

(** The first write call of an update with something to write is the
    clearing replace. *)
Lemma update_starts_with_replace (sv : services) (pid : string)
    (tracks : list Spotify.track) (st : state) :
  tracks <> [] ->
  exists (r : reply unit) (post : list event),
    writes (trace (update_spotify_playlist sv pid tracks st).2)
    = writes (trace st) ++ PlaylistReplaceItems pid [] r :: post.
Proof.
  intros Hne.
  destruct (accepts_or_refused sv st (1 + length (chunks (sorted_ids tracks))))
    as [Hacc | (k & e & Hk & Hacc & He)].
  - rewrite (update_accepted sv pid tracks st Hne Hacc). cbn [snd trace].
    rewrite !writes_app. by eexists _, _.
  - destruct k as [|j].
    + rewrite Nat.add_0_r in He.
      rewrite (update_replace_refused sv pid tracks st e Hne He). cbn [snd trace].
      rewrite !writes_app. by eexists _, _.
    + assert (is_Some (chunks (sorted_ids tracks) !! j)) as [c Hc].
      { apply lookup_lt_is_Some. lia. }
      rewrite (update_add_refused sv pid tracks st j c e Hne Hc Hacc)
        by (by rewrite <- He).
      cbn [snd trace]. rewrite !writes_app. by eexists _, _.
Qed.

(** C10.  The lower-case form of an answer [a] is ["y"] exactly when [a]
    is ["y"] or ["Y"]; ["yes"], a ["y"] between spaces and the empty line
    are not.  Take a run of [main] that gets to the prompt: the identity
    check passes, the source playlist is fetched and has a usable entry,
    and the first search for the first entry has a hit.  Up to the prompt
    the run is harmless.  When the lower-case form of the answer is ["y"],
    the rest of the run is the call of [update_spotify_playlist] on the
    matched tracks, which are not none, and the clearing replace is
    called; for every other answer the run only prints that the sync was
    cancelled and returns, no write call made. *)
Theorem confirmation_is_exactly_y (sv : services) (pl : list raw_track) (fuel : nat)
    (st : state) (a : string) (t : Apple.track) (rest : list Apple.track)
    (top_result : Spotify.item) (more : list Spotify.item)
    (artist0 : string) (others : list string) :
  spotify_me sv = Returns tt ->
  serves sv (APPLE_PLAYLIST_ID sv) pl ->
  Forall Spec.conforms pl ->
  length pl / 100 < fuel ->
  Spec.usable_entries pl = t :: rest ->
  search sv (length (searches (trace st)))
    (query (Apple.name t) (Apple.artist t)) = Returns (top_result :: more) ->
  Spotify.item_artists top_result = artist0 :: others ->
  console_input sv = Returns a ->
  (Str.lower a = "y" <-> a = "y" \/ a = "Y")
  /\ Str.lower "yes" <> "y" /\ Str.lower " y " <> "y" /\ Str.lower EmptyString <> "y"
  /\ exists (pre : list event) (tracks : list Spotify.track),
       harmless pre /\ tracks <> []
       /\ let asked :=
            {| trace := trace st ++ pre ++ [Input confirmation_prompt (Returns a)];
               playlist := playlist st |} in
          (Str.lower a = "y" ->
           main sv fuel st
           = update_spotify_playlist sv (SPOTIFY_PLAYLIST_ID sv) tracks asked
           /\ exists (r : reply unit) (post : list event),
                writes (trace (main sv fuel st).2)
                = writes (trace st)
                    ++ PlaylistReplaceItems (SPOTIFY_PLAYLIST_ID sv) [] r :: post)
          /\ (Str.lower a <> "y" ->
              main sv fuel st = (Ret tt, log (Print cancelled_line) asked)
              /\ writes (trace (main sv fuel st).2) = writes (trace st)).
Proof.
  intros Hme Hserves Hpl Hfuel Husable Hhit Hartists Hin.
  split; [apply lower_is_y|]. do 3 (split; [discriminate|]).
  destruct (fetch_serves sv (APPLE_PLAYLIST_ID sv) pl fuel (log (SpotifyMe (Returns tt)) st))
    as (evs1 & Hrun1 & Hs1 & Hh1); [done..|].
  rewrite Husable in Hrun1.
  destruct (find_first_hit sv t rest
              {| trace := trace (log (SpotifyMe (Returns tt)) st) ++ evs1;
                 playlist := playlist (log (SpotifyMe (Returns tt)) st) |}
              top_result more artist0 others)
    as (found & not_found & evs2 & Hrun2 & Hne & Hh2); [|done|].
  { unfold log. cbn [trace]. rewrite !searches_app, Hs1. cbn. by rewrite !app_nil_r. }
  destruct found as [|s found]; [done|].
  set (review :=
         [Print (nl +:+ str_times "=" 50); Print "                 SYNC REVIEW";
          Print (str_times "=" 50)]
         ++ match not_found with
            | [] => []
            | _ :: _ =>
                Print (nl +:+ "❌ The following songs could not be found on Spotify:")
                :: List.map (fun item => Print ("  - " +:+ item)) not_found
            end
         ++ (Print (nl +:+ "✅ The following songs will be synced to your Spotify playlist, sorted by artist:")
             :: List.map (fun track => Print ("  - " +:+ Spotify.artist track +:+ " - "
                                              +:+ Spotify.name track))
                  (sorted artist_key (s :: found)))
         ++ [Print (str_times "=" 50)]).
  set (pre := [SpotifyMe (Returns tt)] ++ evs1 ++ evs2 ++ review).
  assert (harmless pre) as Hpre.
  { subst pre review. apply harmless_cons; [done..|].
    repeat (apply harmless_app; [done|]).
    assert (forall (A : Type) (line : A -> string) (l : list A),
               harmless (List.map (fun x => Print (line x)) l)) as Hlines.
    { intros A line l. induction l; [apply harmless_nil | by apply harmless_cons]. }
    repeat (apply harmless_cons; [done..|]).
    apply harmless_app.
    { destruct not_found; [apply harmless_nil|]. apply harmless_cons; [done..|].
      apply Hlines. }
    apply harmless_cons; [done..|]. apply harmless_app; [apply Hlines|].
    by apply harmless_cons; [..|apply harmless_nil]. }
  assert (main sv fuel st
          = confirm_and_update sv (s :: found)
              {| trace := trace st ++ pre; playlist := playlist st |}) as Hrun.
  { unfold main.
    erewrite bind_ret; [|unfold try_except, bind, sp_me; rewrite Hme; reflexivity].
    cbn [negb].
    erewrite bind_ret; [|exact Hrun1].
    cbn beta iota.
    erewrite bind_ret; [|exact Hrun2].
    cbn [fst snd].
    erewrite bind_ret; [|reflexivity].
    erewrite bind_ret; [|reflexivity].
    erewrite bind_ret; [|reflexivity].
    erewrite bind_ret; [|apply print_block].
    erewrite bind_ret; [|erewrite bind_ret; [apply for_each_print | reflexivity]].
    erewrite bind_ret; [|reflexivity].
    unfold confirm_and_update. f_equal.
    subst pre review. unfold log. cbn [trace playlist]. f_equal.
    destruct not_found; trace_eq. }
  exists pre, (s :: found). split; [exact Hpre|]. split; [done|].
  cbn zeta. rewrite Hrun. unfold confirm_and_update, bind, input. rewrite Hin.
  cbn [of_reply ret].
  assert (log (Input confirmation_prompt (Returns a))
            {| trace := trace st ++ pre; playlist := playlist st |}
          = {| trace := trace st ++ pre ++ [Input confirmation_prompt (Returns a)];
               playlist := playlist st |}) as ->.
  { unfold log. cbn. by rewrite <- app_assoc. }
  destruct Hpre as [Hw _].
  destruct (decide (Str.lower a = "y")) as [Hy|Hy]; split; intros Hy'; try done.
  - split; [done|].
    destruct (update_starts_with_replace sv (SPOTIFY_PLAYLIST_ID sv) (s :: found)
                {| trace := trace st ++ pre ++ [Input confirmation_prompt (Returns a)];
                   playlist := playlist st |}) as (r & post & ->); [done|].
    exists r, post. cbn [trace]. rewrite !writes_app, Hw. cbn.
    by rewrite !app_nil_r.
  - split; [done|]. unfold print, emit, log. cbn [snd trace].
    rewrite !writes_app, Hw. cbn. by rewrite !app_nil_r.
Qed.

Lemma confirmation_is_exactly_y_witness :
  (Str.lower "Y" = "y" <-> "Y" = "y" \/ "Y" = "Y")
  /\ Str.lower "yes" <> "y" /\ Str.lower " y " <> "y" /\ Str.lower EmptyString <> "y"
  /\ exists (pre : list event) (tracks : list Spotify.track),
       harmless pre /\ tracks <> []
       /\ let asked :=
            {| trace := trace Demo.start ++ pre ++ [Input confirmation_prompt (Returns "Y")];
               playlist := playlist Demo.start |} in
          (Str.lower "Y" = "y" ->
           main (Demo.world (Demo.source 3) Demo.any_hit Demo.write_ok (Returns "Y"))
             2 Demo.start
           = update_spotify_playlist
               (Demo.world (Demo.source 3) Demo.any_hit Demo.write_ok (Returns "Y"))
               "dest" tracks asked
           /\ exists (r : reply unit) (post : list event),
                writes (trace (main (Demo.world (Demo.source 3) Demo.any_hit Demo.write_ok
                                       (Returns "Y")) 2 Demo.start).2)
                = writes (trace Demo.start) ++ PlaylistReplaceItems "dest" [] r :: post)
          /\ (Str.lower "Y" <> "y" ->
              main (Demo.world (Demo.source 3) Demo.any_hit Demo.write_ok (Returns "Y"))
                2 Demo.start
              = (Ret tt, log (Print cancelled_line) asked)
              /\ writes (trace (main (Demo.world (Demo.source 3) Demo.any_hit Demo.write_ok
                                        (Returns "Y")) 2 Demo.start).2)
                 = writes (trace Demo.start)).
Proof.
  apply (confirmation_is_exactly_y
           (Demo.world (Demo.source 3) Demo.any_hit Demo.write_ok (Returns "Y"))
           (Demo.source 3) 2 Demo.start "Y"
           (Apple.Track "A" "Song 0")
           [Apple.Track "h" "Song 1"; Apple.Track "O" "Song 2"]
           (Spotify.Item "id of track:Song 0 artist:A" "track:Song 0 artist:A"
              ["Artist of track:Song 0 artist:A"])
           [] "Artist of track:Song 0 artist:A" []).
  - reflexivity.
  - split; [reflexivity | intros offset; reflexivity].
  - apply (bool_decide_unpack _). vm_compute. exact I.
  - vm_compute. lia.
  - reflexivity.
  - reflexivity.
  - reflexivity.
  - reflexivity.
Defined.

(** X17. The whole run.  When the identity check passes, the source
    service serves a playlist [pl] of records that conform to the API's
    description, in pages, the user answers with ["y"] or ["Y"], and the
    destination service accepts every write, [main] returns; the searches
    it made are those of one lookup per usable entry of [pl], as the
    specification defines them, in the order of [pl], and no others; and
    the destination playlist holds the ids of the matched tracks in the
    case-insensitive order of their artists, those of one artist in the
    order they were matched -- or, when nothing was matched, what it held
    before. *)
Theorem main_end_to_end (sv : services) (pl : list raw_track) (fuel : nat) (st : state)
    (a : string) :
  spotify_me sv = Returns tt ->
  serves sv (APPLE_PLAYLIST_ID sv) pl ->
  Forall Spec.conforms pl ->
  length pl / 100 < fuel ->
  console_input sv = Returns a ->
  Str.lower a = "y" ->
  (forall k, playlist_write sv k = Returns tt) ->
  exists (outs : list MatchResult) (segs : list (list event)) (final : list Spotify.track),
    Forall3 lookup (Spec.usable_entries pl) segs outs
    /\ (main sv fuel st).1 = Ret tt
    /\ searches (trace (main sv fuel st).2)
       = searches (trace st) ++ concat (List.map searches segs)
    /\ playlist (main sv fuel st).2
       = match final with
         | [] => playlist st
         | _ :: _ => List.map Spotify.id final
         end
    /\ final ≡ₚ matched_of outs
    /\ StronglySorted Spec.artist_le final
    /\ forall name : string,
         filter (Spec.by_artist name) final = filter (Spec.by_artist name) (matched_of outs).
Proof.
  intros Hme Hserves Hpl Hfuel Hin Hy Hok.
  unfold main.
  erewrite bind_ret; [|unfold try_except, bind, sp_me; rewrite Hme; reflexivity].
  cbn [negb].
  edestruct (fetch_serves sv (APPLE_PLAYLIST_ID sv) pl fuel) as (evs1 & Hrun1 & Hs1 & _);
    [done..|].
  erewrite bind_ret; [|exact Hrun1].
  destruct (Spec.usable_entries pl) as [|t apple_tracks] eqn:Husable.
  { exists [], [], []. split; [constructor|]. split; [done|]. split.
    { unfold ret, log. cbn [snd trace concat List.map].
      rewrite !searches_app, Hs1. cbn. by rewrite !app_nil_r. }
    split; [done|]. split; [done|]. split; [constructor | done]. }
  edestruct (find_run sv (t :: apple_tracks)) as (outs & segs & evs2 & Hrun2 & HF & Hs2).
  erewrite bind_ret; [|exact Hrun2].
  exists outs, segs, (sorted artist_key (matched_of outs)).
  split; [exact HF|]. cbn [fst snd].
  erewrite bind_ret; [|reflexivity].
  erewrite bind_ret; [|reflexivity].
  erewrite bind_ret. 2: reflexivity.
  erewrite bind_ret; [|apply print_block].
  erewrite bind_ret; [|apply print_block].
  erewrite bind_ret; [|reflexivity].
  destruct (matched_of outs) as [|s spotify_tracks] eqn:Hm.
  { split; [reflexivity|]. split; [|split; [reflexivity | apply sorted_by_artist]].
    unfold print, emit, log. cbn [snd trace playlist].
    rewrite !searches_app, Hs1, Hs2, !searches_print.
    destruct (unmatched_of outs); rewrite ?searches_print, ?searches_prints;
      cbn; rewrite ?app_nil_r; reflexivity. }
  erewrite bind_ret; [|unfold input; rewrite Hin; reflexivity].
  destruct (decide (Str.lower a = "y")) as [_|Hne]; [|done].
  rewrite update_accepted; [| done | intros j _; apply Hok].
  split; [reflexivity|]. split; [|split; [|apply sorted_by_artist]].
  - unfold print, emit, log. cbn [snd trace playlist].
    rewrite !searches_app, Hs1, Hs2, searches_added.
    rewrite !searches_print, !searches_prints.
    destruct (unmatched_of outs); rewrite ?searches_print, ?searches_prints;
      cbn; rewrite ?app_nil_r; reflexivity.
  - cbn [snd playlist]. unfold sorted_ids.
    pose proof (sorted_length artist_key (s :: spotify_tracks)) as Hlen.
    by destruct (sorted artist_key (s :: spotify_tracks)).
Qed.

Lemma main_end_to_end_witness :
  exists (outs : list MatchResult) (segs : list (list event)) (final : list Spotify.track),
    Forall3 lookup (Spec.usable_entries (Demo.damaged 5)) segs outs
    /\ (main (Demo.world (Demo.damaged 5) Demo.any_hit Demo.write_ok (Returns "Y"))
          1 Demo.start).1 = Ret tt
    /\ searches (trace (main (Demo.world (Demo.damaged 5) Demo.any_hit Demo.write_ok
                                (Returns "Y")) 1 Demo.start).2)
       = searches (trace Demo.start) ++ concat (List.map searches segs)
    /\ playlist (main (Demo.world (Demo.damaged 5) Demo.any_hit Demo.write_ok (Returns "Y"))
                   1 Demo.start).2
       = match final with
         | [] => playlist Demo.start
         | _ :: _ => List.map Spotify.id final
         end
    /\ final ≡ₚ matched_of outs
    /\ StronglySorted Spec.artist_le final
    /\ forall name : string,
         filter (Spec.by_artist name) final = filter (Spec.by_artist name) (matched_of outs).
Proof.
  apply (main_end_to_end
           (Demo.world (Demo.damaged 5) Demo.any_hit Demo.write_ok (Returns "Y"))
           (Demo.damaged 5) 1 Demo.start "Y").
  - reflexivity.
  - split; [reflexivity | intros offset; reflexivity].
  - apply (bool_decide_unpack _). vm_compute. exact I.
  - vm_compute. lia.
  - reflexivity.
  - reflexivity.
  - intros k. reflexivity.
Defined.

Example main_end_to_end_example :
  playlist (main (Demo.world (Demo.damaged 5) Demo.any_hit Demo.write_ok (Returns "Y"))
              1 Demo.start).2
  = ["id of track:Song 0 artist:A"; "id of track:Song 1 artist:h";
     "id of track:Song 2 artist:O"; "id of track:Song 4 artist:C"].
Proof. vm_compute. reflexivity. Qed.
